(** * balena-supervisor: target-state fetch loop and proxyvisor planner

    A shallow embedding of the two modules of the supervisor that keep a
    device and its dependent devices in step with the target state
    published by the API:

    - [TargetState]: [update], [get], [poll] and [startPoll] of the
      target-state module (conditional fetch, cache, emitted event, retry
      delay);
    - [Proxyvisor]: [cleanupTars], [executeStepAction],
      [setTargetInTransaction], [_getHookStep], [_compareDevices],
      [nextStepsForDependentApp], [getRequiredSteps], [getCurrentStates],
      [getHookEndpoint], [sendUpdate], [sendDeleteHook] and the executors
      [sendDependentHooks] and [removeDependentApp] of src/proxyvisor.js.

    Module-level and instance-level mutable variables ([cache],
    [targetStateFetchErrors], [this.acknowledgedState], database tables,
    the asset directory) are threaded explicitly.  Promises are run to
    completion: a rejected promise is a [Throw] result. *)

From Stdlib Require Import ZArith QArith Qround Qpower Qminmax Lqa Lia List
  Ascii String SpecFloat.
From stdpp Require Import base option list gmap strings pretty.

Set Warnings "-register-all".
Local Open Scope Z_scope.

(** ** Results of fallible operations *)

Inductive Error :=
| ConfigError                      (* a read of the configuration store failed *)
| InternalInconsistencyError       (* 'Non-string apiEndpoint passed to ...' *)
| TimeoutError                     (* Bluebird's .timeout() fired *)
| RequestError                     (* the HTTP client rejected *)
| TypeError                        (* property read on undefined or null, call of a non-function *)
| InvalidProxyvisorAction (action : string).

Inductive result (A : Type) :=
| Ok (a : A)
| Throw (e : Error).
Arguments Ok {A} a.
Arguments Throw {A} e.

#[global] Instance result_ret : MRet result := λ A a, Ok a.
#[global] Instance result_bind : MBind result := λ A B k r,
  match r with
  | Ok a => k a
  | Throw e => Throw e
  end.

Definition isOk {A} (r : result A) : bool :=
  match r with Ok _ => true | Throw _ => false end.

(** ** The target-state module *)

Module TargetState.

(** *** Documents and object identity

    A target-state document travels as JSON text ([json], no identity) and
    lives in the process as a graph of objects ([jsval]); every object or
    array carries the address it was allocated at, so that two values alias
    exactly when they share an address. *)

Inductive prim :=
| PNull
| PBool (b : bool)
| PNum (z : Z)                         (* the documents here hold integers only *)
| PStr (s : string).

Inductive json :=
| JPrim (p : prim)
| JNode (isArray : bool) (fields : list (string * json)).

Definition addr := nat.

Inductive jsval :=
| VPrim (p : prim)
| VNode (a : addr) (isArray : bool) (fields : list (string * jsval)).

(** Children of an object are visited in enumeration order, each visit
    taking and returning the first unused address. *)
Section fields.
Context {A B : Type} (f : A → addr → B * addr).

Fixpoint mapFields (fs : list (string * A)) (n : addr)
    : list (string * B) * addr :=
  match fs with
  | [] => ([], n)
  | (key, x) :: rest =>
      let '(y, n1) := f x n in
      let '(ys, n2) := mapFields rest n1 in
      ((key, y) :: ys, n2)
  end.
End fields.

(** What the HTTP client does with a body when [json: true]: parse it into
    fresh objects.  [next] is the first unused address. *)
Fixpoint alloc (j : json) (next : addr) : jsval * addr :=
  match j with
  | JPrim p => (VPrim p, next)
  | JNode k fs =>
      let '(vs, n') := mapFields alloc fs (S next) in
      (VNode next k vs, n')
  end.

(** [_.cloneDeep]: a copy of the whole graph in fresh objects. *)
Fixpoint cloneDeep (v : jsval) (next : addr) : jsval * addr :=
  match v with
  | VPrim p => (VPrim p, next)
  | VNode _ k fs =>
      let '(cs, n') := mapFields cloneDeep fs (S next) in
      (VNode next k cs, n')
  end.

(** The content of a value, identity forgotten: two values are deep-equal
    when their contents are equal. *)
Fixpoint content (v : jsval) : json :=
  match v with
  | VPrim p => JPrim p
  | VNode _ k fs => JNode k (map (λ kv, (kv.1, content kv.2)) fs)
  end.

(** The addresses of all objects reachable from a value. *)
Fixpoint addrs (v : jsval) : list addr :=
  match v with
  | VPrim _ => []
  | VNode a _ fs => a :: concat (map (λ kv, addrs kv.2) fs)
  end.

(** Two values alias when some object is part of both. *)
Definition aliases (v w : jsval) : Prop := ∃ a, a ∈ addrs v ∧ a ∈ addrs w.

(** [f] builds, from the first unused address on, a value with the content
    [g x] out of fresh objects only. *)
Definition fresh_copy {A} (f : A → addr → jsval * addr) (g : A → json) (x : A)
    : Prop :=
  ∀ n, content (f x n).1 = g x ∧
       (n ≤ (f x n).2)%nat ∧
       ∀ a, a ∈ addrs (f x n).1 → (n ≤ a < (f x n).2)%nat.

(** *** Requests, responses, configuration *)

(** [headers.etag] of a response is [string | string[] | undefined]. *)
Inductive HeaderValue :=
| HString (s : string)
| HArray (l : list string).

(** The options object handed to [request.getAsync]. *)
Record Params := {
  json_flag : bool;
  req_headers : gmap string string
}.

(** One GET.  [url.resolve(apiEndpoint, path)] is kept as its two
    arguments. *)
Record Request := {
  req_base : string;
  req_path : string;
  req_params : Params
}.

Record Reply := {
  latency : Z;                          (* milliseconds until the reply arrived *)
  statusCode : Z;
  headers : gmap string HeaderValue;
  body : json
}.

Inductive Outcome :=
| Replied (r : Reply)
| Failed.                               (* connection refused, reset, ... *)

(** A value read from the configuration store, by its [typeof]. *)
Inductive ConfigValue :=
| CfgString (s : string)
| CfgOther.

Record ConfigValues := {
  uuid : string;
  apiEndpoint : ConfigValue;
  apiTimeout : Z
}.

(** Everything one [update()] call reads from outside the module. *)
Record Env := {
  getMany : option ConfigValues;        (* [None]: config.getMany rejects *)
  remote : Request → Outcome;           (* the API, as seen through the HTTP client *)
  hrtime : N                            (* process.hrtime() at the finaliser *)
}.

(** *** Module state *)

Record Cache := {
  etag : option HeaderValue;
  cache_body : jsval
}.

Record Event := {                       (* one 'target-state-update' emission *)
  ev_targetState : jsval;
  ev_force : bool;
  ev_isFromApi : bool
}.

Record State := {
  cache : option Cache;                 (* [let cache], undefined at start *)
  lastFetch : option N;                 (* [export let lastFetch] *)
  emitted : list Event;                 (* what [emitter] has emitted so far *)
  sent : list Request;                  (* the GETs issued so far *)
  next : addr                           (* first unused object address *)
}.

Definition initialState : State :=
  {| cache := None; lastFetch := None; emitted := []; sent := []; next := 0%nat |}.

(** [params], as lines 69-77 build it: the If-None-Match header is set when
    [typeof cache?.etag === 'string']. *)
Definition conditionalParams (c : option Cache) : Params :=
  {| json_flag := true;
     req_headers :=
       match c with
       | Some {| etag := Some (HString e) |} => {[ "If-None-Match" := e ]}
       | _ => ∅
       end |}.

Definition statePath (uuid : string) : string :=
  "/device/v2/" +:+ uuid +:+ "/state".

(** The body of [update], inside the lock and before the finaliser.  The
    write lock serialises concurrent calls; here calls are already run one
    after the other. *)
Definition fetchAndStore (force isFromApi : bool) (env : Env) (st : State)
    : State * result () :=
  match getMany env with
  | None => (st, Throw ConfigError)
  | Some cfg =>
      match apiEndpoint cfg with
      | CfgOther => (st, Throw InternalInconsistencyError)
      | CfgString endpointBase =>
          let params := conditionalParams (cache st) in
          (* [request.getAsync(endpoint, { json: true })]: a fresh options
             literal is passed, [params] is not. *)
          let req := {| req_base := endpointBase;
                        req_path := statePath (uuid cfg);
                        req_params := {| json_flag := true; req_headers := ∅ |} |} in
          let st1 := {| cache := cache st; lastFetch := lastFetch st;
                        emitted := emitted st; sent := sent st ++ [req];
                        next := next st |} in
          match remote env req with
          | Failed => (st1, Throw RequestError)
          | Replied r =>
              if decide (apiTimeout cfg ≤ latency r) then (st1, Throw TimeoutError)
              else if decide (statusCode r = 304) then (st1, Ok ())
              else
                let '(b, n1) := alloc (body r) (next st) in
                let '(copy, n2) := cloneDeep b n1 in
                ({| cache := Some {| etag := headers r !! "etag"; cache_body := b |};
                    lastFetch := lastFetch st;
                    emitted := emitted st ++
                      [{| ev_targetState := copy; ev_force := force;
                          ev_isFromApi := isFromApi |}];
                    sent := sent st ++ [req];
                    next := n2 |}, Ok ())
          end
      end
  end.

(** [update]: [fetchAndStore], then [.finally(() => lastFetch = process.hrtime())]. *)
Definition update (force isFromApi : bool) (env : Env) (st : State)
    : State * result () :=
  let '(st', r) := fetchAndStore force isFromApi env st in
  ({| cache := cache st'; lastFetch := Some (hrtime env);
      emitted := emitted st'; sent := sent st'; next := next st' |}, r).

(** [get]: fetch first when there is no cache, then hand out a deep copy. *)
Definition get (env : Env) (st : State) : State * result jsval :=
  let '(st1, r) :=
    match cache st with
    | None => update false false env st
    | Some _ => (st, Ok ())
    end in
  match r with
  | Throw e => (st1, Throw e)
  | Ok _ =>
      match cache st1 with
      | None => (st1, Throw TypeError)
      | Some c =>
          let '(copy, n) := cloneDeep (cache_body c) (next st1) in
          ({| cache := cache st1; lastFetch := lastFetch st1;
              emitted := emitted st1; sent := sent st1; next := n |}, Ok copy)
      end
  end.

(** *** Numbers

    A JavaScript number is a binary64 value, and [*] and [+] round the
    exact result to the nearest one, ties to the even significand.  A
    finite number is kept as the rational it is; [infinity], which no
    finite binary64 value reaches, stands for Infinity. *)

Definition pow2 (e : Z) : Q := (2 ^ e)%Q.

(** The integer part of the binary logarithm of a positive rational. *)
Definition Qlog2 (x : Q) : Z :=
  let k := Z.log2 (Qnum x) - Z.log2 (Zpos (Qden x)) in
  if Qle_bool (pow2 k) x then k else k - 1.

(** The nearest integer, the even one of two that are equally near. *)
Definition rne (x : Q) : Z :=
  let f := Qfloor x in
  match (x - inject_Z f ?= 1 # 2)%Q with
  | Lt => f
  | Gt => f + 1
  | Eq => if Z.even f then f else f + 1
  end.

Definition infinity : Q := pow2 1024.

(** The exponent of the last of the 53 bits of the significand; it stops
    at -1074, from where on the values are subnormal. *)
Definition exponent (x : Q) : Z := Z.max (Qlog2 x - 52) (-1074).

(** A positive rational rounded to 53 bits. *)
Definition rounded (x : Q) : Q :=
  (inject_Z (rne (x / pow2 (exponent x))) * pow2 (exponent x))%Q.

(** What rounds to [2^1024] or beyond overflows. *)
Definition roundPositive (x : Q) : Q := Qmin (rounded x) infinity.

(** The binary64 value nearest to a rational, in lowest terms. *)
Definition round64 (x : Q) : Q :=
  Qred match (x ?= 0)%Q with
       | Eq => 0
       | Gt => roundPositive x
       | Lt => - roundPositive (- x)
       end.

(** [x * y] and [x + y] on finite numbers. *)
Definition fmul (x y : Q) : Q := round64 (x * y).
Definition fadd (x y : Q) : Q := round64 (x + y).


(** The same numbers in the Standard Library's specification of binary64
    arithmetic: the number [m * 2^e] it rounds to, and the rational a
    number stands for. *)
Definition binary64 (m e : Z) : spec_float :=
  binary_normalize 53 1024 m e false.

Definition value (f : spec_float) : Q :=
  match f with
  | S754_finite s m e =>
      Qred ((if s then -1 else 1) * inject_Z (Zpos m) * pow2 e)
  | S754_infinity s => Qred (if s then - infinity else infinity)
  | _ => 0
  end.

(** Operands of [x * y + z]: the jitter of the loop, subnormal numbers,
    an overflow, a tie, negative numbers. *)
Definition samples : list (spec_float * spec_float * spec_float) :=
  [(binary64 (2 ^ 52 - 1) (-52), binary64 60000 0, binary64 900000 0);
   (binary64 (2 ^ 52 - 1) (-52), binary64 60000 0, binary64 60000 0);
   (binary64 1 (-2), binary64 60000 0, binary64 60000 0);
   (binary64 (2 ^ 53 - 1) (-53), binary64 1 (-1074), binary64 3 (-1074));
   (binary64 (2 ^ 53 - 1) (-53), binary64 (2 ^ 53 - 1) 971,
    binary64 (2 ^ 53 - 1) 971);
   (binary64 1 (-53), binary64 3 0, binary64 (2 ^ 53) 0);
   (binary64 12345678901 (-34), binary64 (-7) 3, binary64 5 (-1))].

(** *** The poll loop *)

(** What one pass of [poll] reads from outside the module.  The interval
    and [maxApiJitterDelay] below are numbers of the program, so binary64
    values; they are integers here. *)
Record PollEnv := {
  appUpdatePollInterval : option Z;   (* [None]: config.get rejects *)
  random : Q;                         (* Math.random(), a number in [0, 1) *)
  updateEnv : Env
}.

Record PollState := {
  targetStateFetchErrors : N;         (* [let targetStateFetchErrors = 0] *)
  target : State
}.

Definition initialPollState : PollState :=
  {| targetStateFetchErrors := 0; target := initialState |}.

Section poll.
(** [constants.maxApiJitterDelay], from lib/constants. *)
Variable maxApiJitterDelay : Z.

(** One pass through the body of [poll], up to the [finally]: the time
    slept and the state left behind.  The jittered interval is the binary64
    result of [Math.random() * maxApiJitterDelay + appUpdatePollInterval].
    [15000 * 2 ** n] is an exact integer as long as it is finite, and
    [Math.min] with an infinite second argument returns the first. *)
Definition pollOnce (skipFirstGet : bool) (pe : PollEnv) (ps : PollState)
    : Q * PollState :=
  match appUpdatePollInterval pe with
  | None => (inject_Z 10000, ps)
  | Some interval =>
      let pollInterval :=
        fadd (fmul (random pe) (inject_Z maxApiJitterDelay))
             (inject_Z interval) in
      if skipFirstGet then (pollInterval, ps)
      else
        let '(st', r) := update false false (updateEnv pe) (target ps) in
        match r with
        | Ok _ =>
            (pollInterval, {| targetStateFetchErrors := 0; target := st' |})
        | Throw _ =>
            (inject_Z (Z.min interval
                         (15000 * 2 ^ Z.of_N (targetStateFetchErrors ps))),
             {| targetStateFetchErrors := targetStateFetchErrors ps + 1;
                target := st' |})
        end
  end.

(** [poll] never returns; it is run here for as many passes as there are
    environments, and yields the sleeps in order.  Every pass after the
    first is [poll()], that is [skipFirstGet = false]. *)
Fixpoint poll (skipFirstGet : bool) (envs : list PollEnv) (ps : PollState)
    : list Q * PollState :=
  match envs with
  | [] => ([], ps)
  | pe :: rest =>
      let '(slept, ps1) := pollOnce skipFirstGet pe ps in
      let '(sleeps, ps2) := poll false rest ps1 in
      (slept :: sleeps, ps2)
  end.
End poll.

(** The remote target-state endpoint as a conditional GET is answered by
    one: 304 when the request carries the current validation token in
    If-None-Match, else 200 with the full document and its token in the
    etag header.  It holds one document under one token. *)
Definition conditionalEndpoint (doc : json) (token : string) (millis : Z)
    : Request → Outcome :=
  λ req,
    if decide (req_headers (req_params req) !! "If-None-Match" = Some token)
    then Replied {| latency := millis; statusCode := 304;
                    headers := {[ "etag" := HString token ]};
                    body := JPrim PNull |}
    else Replied {| latency := millis; statusCode := 200;
                    headers := {[ "etag" := HString token ]};
                    body := doc |}.

(** An endpoint that answers every request with the same reply. *)
Definition fixedEndpoint (r : Reply) : Request → Outcome := λ _, Replied r.

(** An endpoint that cannot be reached. *)
Definition unreachableEndpoint : Request → Outcome := λ _, Failed.

(** *** A device in front of an endpoint whose document does not change *)

Definition exampleDocument : json :=
  JNode false
    [("local", JNode false [("name", JPrim (PStr "gateway"))]);
     ("dependent", JNode false [("apps", JNode false []);
                                ("devices", JNode false [])])].

Definition exampleConfig : ConfigValues :=
  {| uuid := "1234abcd";
     apiEndpoint := CfgString "https://api.example.com";
     apiTimeout := 900000 |}.

Definition exampleEnv : Env :=
  {| getMany := Some exampleConfig;
     remote := conditionalEndpoint exampleDocument "v1" 120;
     hrtime := 7 |}.

Definition exampleReply : Reply :=
  {| latency := 120; statusCode := 200;
     headers := {[ "etag" := HString "v2" ]};
     body := exampleDocument |}.

Definition exampleFixedEnv : Env :=
  {| getMany := Some exampleConfig;
     remote := fixedEndpoint exampleReply;
     hrtime := 7 |}.

Definition exampleOfflineEnv : Env :=
  {| getMany := Some exampleConfig;
     remote := unreachableEndpoint;
     hrtime := 7 |}.

Definition exampleFailingPass : PollEnv :=
  {| appUpdatePollInterval := Some 60000;
     random := 1 # 4;
     updateEnv := exampleOfflineEnv |}.

Definition exampleGoodPass : PollEnv :=
  {| appUpdatePollInterval := Some 60000;
     random := 1 # 4;
     updateEnv := exampleFixedEnv |}.

(** A pass in which [Math.random()] returns the number next to one,
    [1 - 2^-52], and the fetch succeeds. *)
Definition exampleNearOnePass (interval : Z) : PollEnv :=
  {| appUpdatePollInterval := Some interval;
     random := Qred (1 - pow2 (-52));
     updateEnv := exampleFixedEnv |}.

(** Outcomes of the fetch inside one pass of the loop, whatever state the
    module is in. *)
Definition updateFails (pe : PollEnv) : Prop :=
  ∀ st, isOk (update false false (updateEnv pe) st).2 = false.


(** *** Calls in sequence *)

(** The module is driven by calls of [update] and [get], each with the
    environment it meets. *)
Inductive Call :=
| CallUpdate (force isFromApi : bool) (env : Env)
| CallGet (env : Env).

Definition call (c : Call) (st : State) : State :=
  match c with
  | CallUpdate force isFromApi env => (update force isFromApi env st).1
  | CallGet env => (get env st).1
  end.

Definition run (calls : list Call) (st : State) : State :=
  foldl (λ st c, call c st) st calls.

(** All objects of a value were allocated before [n]. *)
Definition below (n : addr) (v : jsval) : Prop :=
  ∀ a, a ∈ addrs v → (a < n)%nat.

(** The cached body and the emitted values are made of allocated objects,
    and no emitted value shares an object with the cached body. *)
Definition separated (st : State) : Prop :=
  (∀ c, cache st = Some c → below (next st) (cache_body c)) ∧
  (∀ e, e ∈ emitted st → below (next st) (ev_targetState e)) ∧
  (∀ c e, cache st = Some c → e ∈ emitted st →
          ¬ aliases (ev_targetState e) (cache_body c)).

(** *** Start of the loop *)

(** [startPoll = _.once(...)]: the first call reads [instantUpdates]
    ([None]: the read rejects) and starts [poll(!instantUpdates)]; later
    calls return the first result and start nothing.  The result is the
    flag handed to [poll], if a loop was started, and whether [startPoll]
    has been called. *)
Definition startPoll (instantUpdatesSetting : option bool) (called : bool)
    : option bool * bool :=
  if called then (None, true)
  else
    let instantUpdates :=
      match instantUpdatesSetting with
      | Some b => b
      | None => false
      end in
    (Some (negb instantUpdates), true).

(** The sleeps and the state of the loop that a call of [startPoll]
    starts, run for the passes of [envs]. *)
Definition startedPoll (maxApiJitterDelay : Z)
    (instantUpdatesSetting : option bool) (called : bool)
    (envs : list PollEnv) (ps : PollState) : list Q * PollState :=
  match (startPoll instantUpdatesSetting called).1 with
  | Some skipFirstGet => poll maxApiJitterDelay skipFirstGet envs ps
  | None => ([], ps)
  end.

(** An endpoint in trouble: a 500 with an error body, and a bare 304. *)
Definition exampleErrorReply : Reply :=
  {| latency := 120; statusCode := 500; headers := ∅;
     body := JNode false [("error", JPrim (PStr "Internal Server Error"))] |}.

Definition exampleErrorEnv : Env :=
  {| getMany := Some exampleConfig;
     remote := fixedEndpoint exampleErrorReply;
     hrtime := 9 |}.

Definition exampleNotModifiedEnv : Env :=
  {| getMany := Some exampleConfig;
     remote := fixedEndpoint {| latency := 120; statusCode := 304;
                                headers := ∅; body := JPrim PNull |};
     hrtime := 9 |}.

(** A pass in which the configuration store cannot be read. *)
Definition exampleUnconfiguredPass : PollEnv :=
  {| appUpdatePollInterval := None;
     random := 1 # 4;
     updateEnv := exampleFixedEnv |}.

End TargetState.

(** ** The proxyvisor *)

Module Proxyvisor.

(** *** lodash on arrays *)

(** [_.uniq] / [baseUniq]: first occurrences, in order. *)
Definition uniq `{EqDecision A} (l : list A) : list A :=
  foldl (λ acc x, if decide (x ∈ acc) then acc else acc ++ [x]) [] l.

(** [_.union(a, b)]. *)
Definition union `{EqDecision A} (a b : list A) : list A := uniq (a ++ b).

(** [baseDifference] with the comparator [_.isEqual]. *)
Definition differenceWith `{EqDecision A} (a b : list A) : list A :=
  filter (λ x, x ∉ b) a.

(** [_.xorWith(a, b, _.isEqual)]. *)
Definition xorWith `{EqDecision A} (a b : list A) : list A :=
  uniq (differenceWith a b ++ differenceWith b a).

(** [_.reject(collection, predicate)]. *)
Definition reject {A} (p : A → bool) (l : list A) : list A :=
  List.filter (λ x, negb (p x)) l.

(** *** The [_.property] shorthand on strings

    [_.reject(files, fileToKeep)] is given a string where lodash expects a
    predicate; lodash turns a string into [_.property(string)], the
    function that reads the property at that path, and rejects the
    elements for which the value read is truthy. *)

Inductive propval :=
| Undefined
| StringVal (s : string)
| NumberVal (n : N)
| FunctionVal.

Definition toBoolean (v : propval) : bool :=
  match v with
  | Undefined => false
  | StringVal s => negb (bool_decide (s = ""))
  | NumberVal n => negb (bool_decide (n = 0%N))
  | FunctionVal => true
  end.

(** Members every object inherits from [Object.prototype]. *)
Definition objectPrototypeNames : list string :=
  ["constructor"; "hasOwnProperty"; "isPrototypeOf"; "propertyIsEnumerable";
   "toLocaleString"; "toString"; "valueOf"; "__defineGetter__";
   "__defineSetter__"; "__lookupGetter__"; "__lookupSetter__"].

(** Methods of [String.prototype]. *)
Definition stringPrototypeNames : list string :=
  ["anchor"; "at"; "big"; "blink"; "bold"; "charAt"; "charCodeAt";
   "codePointAt"; "concat"; "endsWith"; "fixed"; "fontcolor"; "fontsize";
   "includes"; "indexOf"; "italics"; "lastIndexOf"; "link"; "localeCompare";
   "match"; "matchAll"; "normalize"; "padEnd"; "padStart"; "repeat";
   "replace"; "replaceAll"; "search"; "slice"; "small"; "split";
   "startsWith"; "strike"; "sub"; "substr"; "substring"; "sup";
   "toLocaleLowerCase"; "toLocaleUpperCase"; "toLowerCase"; "toUpperCase";
   "trim"; "trimEnd"; "trimLeft"; "trimRight"; "trimStart"].

(** [s[key]] for a string [s]: a character for an index in range, the
    length, an inherited method, or undefined. *)
Definition stringProp (s key : string) : propval :=
  match list_find (λ i, pretty (N.of_nat i) = key) (seq 0 (String.length s)) with
  | Some (i, _) => StringVal (String.substring i 1 s)
  | None =>
      if decide (key = "length") then NumberVal (N.of_nat (String.length s))
      else if decide (key ∈ stringPrototypeNames ++ objectPrototypeNames)
           then FunctionVal
           else Undefined
  end.

(** [v[key]].  For numbers and functions only the members shared by all
    objects are listed. *)
Definition getProp (v : propval) (key : string) : propval :=
  match v with
  | Undefined => Undefined
  | StringVal s => stringProp s key
  | NumberVal _ | FunctionVal =>
      if decide (key ∈ objectPrototypeNames) then FunctionVal else Undefined
  end.

(** [stringToPath] for a path without brackets: the segments between the
    dots. *)
Fixpoint splitDots (acc s : string) : list string :=
  match s with
  | EmptyString => [String.rev acc]
  | String c rest =>
      if decide (c = "."%char) then String.rev acc :: splitDots "" rest
      else splitDots (String c acc) rest
  end.

Definition stringToPath (path : string) : list string := splitDots "" path.

(** [baseGet]: follow the segments while the value is not undefined. *)
Definition baseGet (v : propval) (path : list string) : propval :=
  foldl getProp v path.

(** [_.property(path)], as a predicate on file names. *)
Definition property (path : string) (file : string) : bool :=
  toBoolean (baseGet (StringVal file) (stringToPath path)).

(** *** Tarballs of dependent-app assets *)

Definition tarDirectory (appId : N) : string :=
  "/data/dependent-assets/" +:+ pretty appId.

Definition tarFilename (appId : N) (commit : string) : string :=
  pretty appId +:+ "-" +:+ commit +:+ ".tar".

Definition tarPath (appId : N) (commit : string) : string :=
  tarDirectory appId +:+ "/" +:+ tarFilename appId commit.

(** The directories that exist, each with the names in it. *)
Abbreviation FileSystem := (gmap string (list string)).

(** [fs.unlink(path.join(dir, file))] of an entry that can be removed. *)
Definition unlink (dir file : string) (fs : FileSystem) : FileSystem :=
  alter (filter (λ f, f ≠ file)) dir fs.

(** [cleanupTars(appId, commit)] in a directory whose entries can all be
    removed: the files unlinked and the file system left behind.
    [readdir] of a missing directory is caught and read as the empty
    list. *)
Definition cleanupTars (appId : N) (commit : option string) (fs : FileSystem)
    : list string * FileSystem :=
  let fileToKeep :=
    match commit with
    | Some c => Some (tarFilename appId c)
    | None => None
    end in
  let dir := tarDirectory appId in
  let files := default [] (fs !! dir) in
  let files :=
    match fileToKeep with
    | Some keep => reject (property keep) files
    | None => files
    end in
  (files, foldl (λ fs file, unlink dir file fs) fs files).

(** *** Entries that cannot be unlinked

    [fs.unlink] rejects on an entry it cannot remove, a subdirectory for
    one, and leaves it where it is; [unlink] above is the call on an entry
    that can be removed.  [pinned dir name] tells which entries cannot. *)

(** [fs.unlink(path.join(dir, file))]: the file system left and whether
    the promise resolved. *)
Definition unlinkOrReject (pinned : string → string → bool)
    (dir file : string) (fs : FileSystem) : FileSystem * bool :=
  if pinned dir file then (fs, false) else (unlink dir file fs, true).

(** What a call of [cleanupTars] leaves: the files it called [fs.unlink]
    for, the file system once these calls have settled, and whether the
    promise resolved. *)
Record Cleanup := {
  attempted : list string;
  remaining : FileSystem;
  resolved : bool
}.

(** [cleanupTars(appId, commit)] with entries that cannot be unlinked.
    [Promise.map] calls [fs.unlink] for every file before any of the
    calls settles, so every file that can be removed is removed; the
    promise rejects when one of the calls does. *)
Definition cleanupTarsOrReject (pinned : string → string → bool)
    (appId : N) (commit : option string) (fs : FileSystem) : Cleanup :=
  let fileToKeep :=
    match commit with
    | Some c => Some (tarFilename appId c)
    | None => None
    end in
  let dir := tarDirectory appId in
  let files := default [] (fs !! dir) in
  let files :=
    match fileToKeep with
    | Some keep => reject (property keep) files
    | None => files
    end in
  {| attempted := files;
     remaining :=
       foldl (λ fs file, (unlinkOrReject pinned dir file fs).1) fs files;
     resolved :=
       forallb (λ file, (unlinkOrReject pinned dir file fs).2) files |}.

(** *** Data of the planner *)

(** [config] and [environment]: string to string. *)
Abbreviation Dict := (gmap string string).

(** A dependent app as [normaliseDependentAppFromDB] returns it. *)
Record DependentApp := {
  appId : N;
  name : string;
  commit : option string;
  releaseId : option N;
  image : option string;
  imageId : option N;
  config : Dict;
  environment : Dict;
  parentApp : N
}.

(** The entry of [device.apps] in a row of [getCurrentStates]. *)
Record DeviceApp := {
  dev_commit : option string;
  dev_config : option Dict;
  dev_environment : option Dict;
  targetCommit : option string;
  targetEnvironment : option Dict;
  targetConfig : option Dict
}.

(** A current dependent device; [dev_apps] is keyed by appId. *)
Record Device := {
  uuid : string;
  dev_name : option string;
  lock_expiry_date : option Z;
  markedForDeletion : bool;
  dev_apps : gmap N DeviceApp
}.

(** A target dependent device, as [normaliseDependentDeviceTargetFromDB]
    returns it. *)
Record TargetApp := {
  tgt_commit : option string;
  tgt_environment : Dict;
  tgt_config : Dict
}.

Record DeviceTarget := {
  tgt_uuid : string;
  tgt_name : option string;
  tgt_apps : gmap N TargetApp
}.

Record Image := {
  img_name : option string;
  img_imageId : option N;
  img_appId : N;
  img_dependent : bool
}.

(** The state a hook delivers: [{ appId, commit, config, environment }]. *)
Record HookState := {
  hs_appId : N;
  hs_commit : option string;
  hs_config : option Dict;
  hs_environment : option Dict
}.

(** An entry of [hookStep.devices]: [{ uuid, markedForDeletion: true }] or
    [{ uuid, target }]. *)
Record HookDevice := {
  hook_uuid : string;
  hook_target : option HookState;
  hook_markedForDeletion : bool
}.

(** [step.appId] is a number when it is copied from an app record and a
    string when it is a key of [_.keyBy]; [===] tells them apart. *)
Inductive AppIdValue :=
| AppIdNumber (n : N)
| AppIdKey (n : N).

Inductive Step :=
| RemoveDependentApp (appId : N)
| Noop
| Fetch (appId : N) (image : Image)
| UpdateDependentTargets (devices : list DeviceTarget) (app : DependentApp) (appId : N)
| SendDependentHooks (devices : list HookDevice) (appId : N)
| OtherStep (action : string) (appId : option AppIdValue).   (* a step of another component *)

Definition step_action (step : Step) : string :=
  match step with
  | RemoveDependentApp _ => "removeDependentApp"
  | Noop => "noop"
  | Fetch _ _ => "fetch"
  | UpdateDependentTargets _ _ _ => "updateDependentTargets"
  | SendDependentHooks _ _ => "sendDependentHooks"
  | OtherStep action _ => action
  end.

Definition step_appId (step : Step) : option AppIdValue :=
  match step with
  | RemoveDependentApp n => Some (AppIdNumber n)
  | Noop => None
  | Fetch k _ => Some (AppIdKey k)
  | UpdateDependentTargets _ _ k => Some (AppIdKey k)
  | SendDependentHooks _ k => Some (AppIdKey k)
  | OtherStep _ a => a
  end.

#[global] Instance DependentApp_eq_dec : EqDecision DependentApp.
Proof. solve_decision. Defined.
#[global] Instance DeviceApp_eq_dec : EqDecision DeviceApp.
Proof. solve_decision. Defined.
#[global] Instance Device_eq_dec : EqDecision Device.
Proof. solve_decision. Defined.
#[global] Instance TargetApp_eq_dec : EqDecision TargetApp.
Proof. solve_decision. Defined.
#[global] Instance DeviceTarget_eq_dec : EqDecision DeviceTarget.
Proof. solve_decision. Defined.
#[global] Instance Image_eq_dec : EqDecision Image.
Proof. solve_decision. Defined.
#[global] Instance HookState_eq_dec : EqDecision HookState.
Proof. solve_decision. Defined.
#[global] Instance HookDevice_eq_dec : EqDecision HookDevice.
Proof. solve_decision. Defined.
#[global] Instance AppIdValue_eq_dec : EqDecision AppIdValue.
Proof. solve_decision. Defined.
#[global] Instance Step_eq_dec : EqDecision Step.
Proof. solve_decision. Defined.

(** *** The action executor *)

Inductive Executor :=
| UpdateDependentTargetsExecutor
| SendDependentHooksExecutor
| RemoveDependentAppExecutor.

(** What [this.actionExecutors[name]] evaluates to: one of the three
    functions of the object literal, a member inherited from
    [Object.prototype], or undefined. *)
Inductive Member :=
| OwnExecutor (e : Executor)
| InheritedMethod (name : string)
| PrototypeObject                     (* the value of [__proto__], not a function *)
| NoMember.

Definition actionExecutors (action : string) : Member :=
  if decide (action = "updateDependentTargets") then OwnExecutor UpdateDependentTargetsExecutor
  else if decide (action = "sendDependentHooks") then OwnExecutor SendDependentHooksExecutor
  else if decide (action = "removeDependentApp") then OwnExecutor RemoveDependentAppExecutor
  else if decide (action ∈ objectPrototypeNames) then InheritedMethod action
  else if decide (action = "__proto__") then PrototypeObject
  else NoMember.

(** [this.validActions = _.keys(this.actionExecutors)]. *)
Definition validActions : list string :=
  ["updateDependentTargets"; "sendDependentHooks"; "removeDependentApp"].

(** What a call of [executeStepAction] starts: one of the executors, or
    a method of [Object.prototype] that returns when it is called with the
    step as its only argument. *)
Inductive Dispatch :=
| Runs (e : Executor) (step : Step)
| CallsInherited (name : string) (step : Step).

(** [__defineGetter__(step)] and [__defineSetter__(step)] throw a
    TypeError, their second argument being no function; so does the call
    of [__proto__], which is an object. *)
Definition executeStepAction (step : Step) : result Dispatch :=
  match actionExecutors (step_action step) with
  | NoMember => Throw (InvalidProxyvisorAction (step_action step))
  | OwnExecutor e => Ok (Runs e step)
  | InheritedMethod name =>
      if decide (name ∈ ["__defineGetter__"; "__defineSetter__"])
      then Throw TypeError
      else Ok (CallsInherited name step)
  | PrototypeObject => Throw TypeError
  end.

(** *** Objects keyed by appId

    An object whose keys are appIds enumerates them in ascending numeric
    order; it is kept as an association list in that order. *)

Fixpoint setKey {A} (k : N) (v : A) (o : list (N * A)) : list (N * A) :=
  match o with
  | [] => [(k, v)]
  | (k', v') :: rest =>
      if decide (k = k') then (k, v) :: rest
      else if decide (k < k')%N then (k, v) :: o
      else (k', v') :: setKey k v rest
  end.

Fixpoint getKey {A} (k : N) (o : list (N * A)) : option A :=
  match o with
  | [] => None
  | (k', v) :: rest => if decide (k = k') then Some v else getKey k rest
  end.

(** [_.keyBy(apps, 'appId')]. *)
Definition keyBy (apps : list DependentApp) : list (N * DependentApp) :=
  foldl (λ o app, setKey (appId app) app o) [] apps.

(** [_.keys(o)]. *)
Definition keys {A} (o : list (N * A)) : list N := o.*1.

(** *** The acknowledged states

    [this.acknowledgedState[uuid]] is undefined (no entry), null
    ([Some None]) or a delivered state. *)
Abbreviation Acknowledged := (gmap string (option HookState)).

(** *** The planner *)

Definition targetStateOf (appId : N) (a : DeviceApp) : HookState :=
  {| hs_appId := appId; hs_commit := targetCommit a;
     hs_config := targetConfig a; hs_environment := targetEnvironment a |}.

Definition currentStateOf (appId : N) (a : DeviceApp) : HookState :=
  {| hs_appId := appId; hs_commit := dev_commit a;
     hs_config := dev_config a; hs_environment := dev_environment a |}.

(** The loop of [_getHookStep]; [devices] is [hookStep.devices] so far. *)
Fixpoint pushHookDevices (acknowledgedState : Acknowledged) (appId : N)
    (currentDevices : list Device) (devices : list HookDevice)
    : result (list HookDevice) :=
  match currentDevices with
  | [] => Ok devices
  | device :: rest =>
      if markedForDeletion device then
        pushHookDevices acknowledgedState appId rest
          (devices ++ [{| hook_uuid := uuid device; hook_target := None;
                          hook_markedForDeletion := true |}])
      else
        match dev_apps device !! appId with
        | None => Throw TypeError
        | Some a =>
            let targetState := targetStateOf appId a in
            let currentState := currentStateOf appId a in
            if bool_decide (targetCommit a ≠ None)
               && bool_decide (targetState ≠ currentState)
               && bool_decide (acknowledgedState !! uuid device ≠ Some (Some targetState))
            then
              pushHookDevices acknowledgedState appId rest
                (devices ++ [{| hook_uuid := uuid device;
                                hook_target := Some targetState;
                                hook_markedForDeletion := false |}])
            else pushHookDevices acknowledgedState appId rest devices
        end
  end.

Definition _getHookStep (acknowledgedState : Acknowledged)
    (currentDevices : list Device) (appId : N) : result Step :=
  devices ← pushHookDevices acknowledgedState appId currentDevices [];
  Ok (SendDependentHooks devices appId).

(** The callback of [_.map] in [_compareDevices]: null for a device marked
    for deletion, else the device reshaped as a target. *)
Definition deviceAsTarget (appId : N) (dev : Device) : result (option DeviceTarget) :=
  if markedForDeletion dev then Ok None
  else
    match dev_apps dev !! appId with
    | None => Throw TypeError
    | Some a =>
        Ok (Some {| tgt_uuid := uuid dev;
                    tgt_name := dev_name dev;
                    tgt_apps :=
                      {[ appId := {| tgt_commit := targetCommit a;
                                     tgt_environment := default ∅ (targetEnvironment a);
                                     tgt_config := default ∅ (targetConfig a) |} ]} |})
    end.

Definition _compareDevices (currentDevices : list Device)
    (targetDevices : list DeviceTarget) (appId : N) : result bool :=
  currentDeviceTargets ← mapM (deviceAsTarget appId) currentDevices;
  let currentDeviceTargets := omap id currentDeviceTargets in
  Ok (negb (bool_decide (xorWith currentDeviceTargets targetDevices = []))).

Definition _imageAvailable (image : option string) (available : list Image) : bool :=
  existsb (λ img, bool_decide (img_name img = image)) available.

Definition imageForDependentApp (app : DependentApp) : Image :=
  {| img_name := image app; img_imageId := imageId app;
     img_appId := appId app; img_dependent := true |}.

Definition nextStepsForDependentApp (acknowledgedState : Acknowledged)
    (appId : N) (availableImages : list Image) (downloading : list N)
    (current target : option DependentApp)
    (currentDevices : list Device) (targetDevices : list DeviceTarget)
    (stepsInProgress : list Step) : result (list Step) :=
  match target with
  | None =>
      match current with
      | Some c => Ok [RemoveDependentApp (Proxyvisor.appId c)]
      | None => Throw TypeError
      end
  | Some target =>
      if existsb (λ step, bool_decide (step_appId step = Some (AppIdNumber (parentApp target))))
                 stepsInProgress
      then Ok [Noop]
      else
        let needsDownload :=
          bool_decide (commit target ≠ None)
          && bool_decide (image target ≠ None)
          && negb (_imageAvailable (image target) availableImages) in
        if needsDownload then
          if bool_decide (imageId target ∈ Some <$> downloading) then Ok [Noop]
          else Ok [Fetch appId (imageForDependentApp target)]
        else
          devicesDiffer ← _compareDevices currentDevices targetDevices appId;
          if negb (bool_decide (current = Some target)) || devicesDiffer then
            Ok [UpdateDependentTargets targetDevices target appId]
          else
            hookStep ← _getHookStep acknowledgedState currentDevices appId;
            match hookStep with
            | SendDependentHooks [] _ => Ok []
            | _ => Ok [hookStep]
            end
  end.

(** [current.dependent] and [target.dependent]; [None] for a field that is
    null or undefined. *)
Record Dependent (D : Type) := {
  dep_apps : option (list DependentApp);
  dep_devices : option (list D)
}.
Arguments dep_apps {D} _.
Arguments dep_devices {D} _.

(** [devicesForApp]: [_.filter(devices, d => _.has(d.apps, appId))]; the
    devices of an undefined [dependent] cannot be read. *)
Definition devicesForApp {D V} (apps : D → gmap N V) (appId : N)
    (dependent : option (Dependent D)) : result (list D) :=
  match dependent with
  | None => Throw TypeError
  | Some dep =>
      Ok (List.filter (λ d, bool_decide (is_Some (apps d !! appId)))
                      (default [] (dep_devices dep)))
  end.

Definition getRequiredSteps (acknowledgedState : Acknowledged)
    (availableImages : list Image) (downloading : list N)
    (current : option (Dependent Device))
    (target : option (Dependent DeviceTarget))
    (stepsInProgress : list Step) : result (list Step) :=
  let targetApps := keyBy (default [] (target ≫= dep_apps)) in
  let targetAppIds := keys targetApps in
  let currentApps := keyBy (default [] (current ≫= dep_apps)) in
  let currentAppIds := keys currentApps in
  let allAppIds := union targetAppIds currentAppIds in
  steps ← mapM (λ appId,
      currentDevices ← devicesForApp dev_apps appId current;
      targetDevices ← devicesForApp tgt_apps appId target;
      nextStepsForDependentApp acknowledgedState appId availableImages
        downloading (getKey appId currentApps) (getKey appId targetApps)
        currentDevices targetDevices stepsInProgress) allAppIds;
  Ok (concat steps).

(** *** Hook delivery *)

Inductive HookOutcome :=
| HookReplied (latency statusCode : Z) (body : string)
| HookFailed.

(** [sendUpdate]: the acknowledged states afterwards and whether an error
    was logged.  Assigning an undefined [device.target] leaves the entry
    undefined. *)
Definition sendUpdate (device : HookDevice) (timeout : Z) (outcome : HookOutcome)
    (acknowledgedState : Acknowledged) : Acknowledged * bool :=
  match outcome with
  | HookFailed => (acknowledgedState, true)
  | HookReplied latency statusCode _ =>
      if decide (timeout ≤ latency) then (acknowledgedState, true)
      else if decide (statusCode = 200) then
        (match hook_target device with
         | Some t => <[hook_uuid device := Some t]> acknowledgedState
         | None => delete (hook_uuid device) acknowledgedState
         end, false)
      else
        (<[hook_uuid device := None]> acknowledgedState,
         negb (bool_decide (statusCode = 202)))
  end.

(** *** The target tables *)

(** An app of the desired state, as the API gives it. *)
Record AppSpec := {
  spec_name : string;
  spec_commit : option string;
  spec_releaseId : option N;
  spec_imageId : option N;
  spec_parentApp : N;
  spec_image : option string;
  spec_config : option Dict;
  spec_environment : option Dict
}.

(** An entry of [device.apps] in the desired state. *)
Record AppAssignment := {
  asg_commit : option string;
  asg_config : option Dict;
  asg_environment : option Dict
}.

Record DeviceSpec := {
  dspec_name : option string;
  dspec_apps : option (list (N * AppAssignment))    (* in enumeration order *)
}.

(** The [dependent] argument of [setTargetInTransaction]; apps are keyed
    by appId and devices by uuid, both in enumeration order. *)
Record Desired := {
  des_apps : option (list (N * AppSpec));
  des_devices : option (list (string * DeviceSpec))
}.

(** The two tables [setTargetInTransaction] writes, one row per key.  A
    column that holds JSON text is kept as the value it encodes. *)
Record Database := {
  dependentAppTarget : gmap N DependentApp;
  dependentDeviceTarget : gmap string DeviceTarget
}.

(** Modelled from the spec: [db.upsertModel(table, row, key, trx)] of the
    database module, which is not among the sources ("upserts each target
    app row (keyed by appId)", "upserts each target device row (keyed by
    uuid)"): the row under the key is replaced, or added when there is
    none. *)
Definition upsertModel `{Countable K} {V} (key : K) (row : V) (table : gmap K V)
    : gmap K V :=
  <[key := row]> table.

(** Modelled from the spec: [trx(table).whereNotIn(column, keys).del()]
    ("deletes any target app row whose appId is absent from the desired
    set"): the rows whose key is listed stay. *)
Definition deleteWhereNotIn `{Countable K} {V} (keys : list K) (table : gmap K V)
    : gmap K V :=
  filter (λ row, row.1 ∈ keys) table.

(** Modelled from the spec: [checkInt] of lib/validation, which is not
    among the sources: the integer that a key of [dependent.apps] spells.
    Keys are kept as the integers they spell. *)
Definition checkInt (appId : N) : N := appId.

(** [x || null] for a commit: the empty string is falsy. *)
Definition orNull (c : option string) : option string :=
  match c with
  | Some s => if decide (s = "") then None else Some s
  | None => None
  end.

Section store.
(** [this.images.normalise], of the images module. *)
Variable normalise : string → string.

(** [normaliseDependentAppForDB], on the clone that carries its appId. *)
Definition normaliseDependentAppForDB (appId : N) (app : AppSpec) : DependentApp :=
  {| appId := appId;
     name := spec_name app;
     commit := spec_commit app;
     releaseId := spec_releaseId app;
     imageId := spec_imageId app;
     parentApp := spec_parentApp app;
     image := normalise <$> spec_image app;
     config := default ∅ (spec_config app);
     environment := default ∅ (spec_environment app) |}.

Definition normaliseDependentDeviceTargetForDB (uuid : string)
    (device : DeviceSpec) (appCommit : option string) : DeviceTarget :=
  {| tgt_uuid := uuid;
     tgt_name := dspec_name device;
     tgt_apps :=
       list_to_map
         (map (λ '(k, app),
                 (k, {| tgt_commit := orNull appCommit;
                        tgt_config := default ∅ (asg_config app);
                        tgt_environment := default ∅ (asg_environment app) |}))
              (default [] (dspec_apps device))) |}.

(** The first [Promise.try] of [setTargetInTransaction]. *)
Definition setTargetApps (dependent : option Desired) (db : Database) : Database :=
  match dependent ≫= des_apps with
  | None => db
  | Some apps =>
      let appsForDB :=
        map (λ '(appId, app), normaliseDependentAppForDB (checkInt appId) app)
            apps in
      let upserted :=
        foldl (λ table app, upsertModel (appId app) app table)
              (dependentAppTarget db) appsForDB in
      {| dependentAppTarget := deleteWhereNotIn (map appId appsForDB) upserted;
         dependentDeviceTarget := dependentDeviceTarget db |}
  end.

(** The [.then] of [setTargetInTransaction].  [dependent.apps[appId]]
    cannot be read when [dependent.apps] is null or undefined. *)
Definition setTargetDevices (dependent : option Desired) (db : Database)
    : Database * result () :=
  match dependent ≫= des_devices with
  | None => (db, Ok ())
  | Some devices =>
      let normalised :=
        mapM (λ '(uuid, device),
                let appId := head (keys (default [] (dspec_apps device))) in
                match dependent ≫= des_apps with
                | None => Throw TypeError
                | Some apps =>
                    let app := appId ≫= λ k, getKey k apps in
                    Ok (normaliseDependentDeviceTargetForDB uuid device
                          (app ≫= spec_commit))
                end) devices in
      match normalised with
      | Throw e => (db, Throw e)
      | Ok devicesForDB =>
          let upserted :=
            foldl (λ table device, upsertModel (tgt_uuid device) device table)
                  (dependentDeviceTarget db) devicesForDB in
          ({| dependentAppTarget := dependentAppTarget db;
              dependentDeviceTarget :=
                deleteWhereNotIn (map tgt_uuid devicesForDB) upserted |},
           Ok ())
      end
  end.

(** [setTargetInTransaction]: the tables as the transaction leaves them,
    and whether it resolved. *)
Definition setTargetInTransaction (dependent : option Desired) (db : Database)
    : Database * result () :=
  setTargetDevices dependent (setTargetApps dependent db).
End store.

(** *** When a device is due a hook *)

(** The condition under which the loop of [_getHookStep] pushes an entry
    for a device. *)
Definition qualifiesForHook (acknowledgedState : Acknowledged) (appId : N)
    (d : Device) : Prop :=
  markedForDeletion d = true ∨
  ∃ a, dev_apps d !! appId = Some a ∧
       targetCommit a ≠ None ∧
       targetStateOf appId a ≠ currentStateOf appId a ∧
       acknowledgedState !! uuid d ≠ Some (Some (targetStateOf appId a)).

(** *** A gateway with one dependent app and one dependent device *)

Definition exampleApp : DependentApp :=
  {| appId := 7; name := "sensors"; commit := Some "abc";
     releaseId := Some 3%N; image := Some "registry/sensors:abc";
     imageId := Some 11%N; config := ∅; environment := {[ "MODE" := "fast" ]};
     parentApp := 1 |}.

(** The device runs commit "old"; its target is commit "abc". *)
Definition exampleDeviceApp : DeviceApp :=
  {| dev_commit := Some "old"; dev_config := Some ∅;
     dev_environment := Some ∅;
     targetCommit := Some "abc"; targetEnvironment := Some ∅;
     targetConfig := Some ∅ |}.

Definition exampleDevice : Device :=
  {| uuid := "d1"; dev_name := Some "probe"; lock_expiry_date := None;
     markedForDeletion := false; dev_apps := {[ 7%N := exampleDeviceApp ]} |}.

Definition exampleDeviceTarget : DeviceTarget :=
  {| tgt_uuid := "d1"; tgt_name := Some "probe";
     tgt_apps := {[ 7%N := {| tgt_commit := Some "abc"; tgt_environment := ∅;
                             tgt_config := ∅ |} ]} |}.

Definition exampleImage : Image :=
  {| img_name := Some "registry/sensors:abc"; img_imageId := Some 11%N;
     img_appId := 7; img_dependent := true |}.

Definition exampleCurrent : option (Dependent Device) :=
  Some {| dep_apps := Some [exampleApp]; dep_devices := Some [exampleDevice] |}.

Definition exampleTarget : option (Dependent DeviceTarget) :=
  Some {| dep_apps := Some [exampleApp]; dep_devices := Some [exampleDeviceTarget] |}.

(** The acknowledged states once the device has answered 200 to its
    target. *)
Definition exampleAcknowledged : Acknowledged :=
  {[ "d1" := Some (targetStateOf 7 exampleDeviceApp) ]}.

(** A device whose target has no commit but a new configuration. *)
Definition exampleUncommittedApp : DeviceApp :=
  {| dev_commit := None; dev_config := Some ∅; dev_environment := Some ∅;
     targetCommit := None; targetEnvironment := Some ∅;
     targetConfig := Some {[ "RATE" := "5" ]} |}.

Definition exampleUncommittedDevice : Device :=
  {| uuid := "d2"; dev_name := Some "valve"; lock_expiry_date := None;
     markedForDeletion := false; dev_apps := {[ 7%N := exampleUncommittedApp ]} |}.

(** The asset directory of app 7 with the tarball of the current commit
    and a stale one. *)
Definition exampleAssets : FileSystem :=
  {[ "/data/dependent-assets/7" := ["7-abc.tar"; "7-old.tar"] ]}.

(** The same directory with a subdirectory in it, which [fs.unlink] cannot
    remove. *)
Definition exampleAssetsWithFolder : FileSystem :=
  {[ "/data/dependent-assets/7" := ["7-abc.tar"; "extracted"; "7-old.tar"] ]}.

Definition exampleFolders (dir name : string) : bool :=
  bool_decide (name = "extracted").

(** A desired state with devices only, one with apps only, and the target
    tables they are applied to. *)
Definition exampleAppSpec : AppSpec :=
  {| spec_name := "sensors"; spec_commit := Some "abc";
     spec_releaseId := Some 3%N; spec_imageId := Some 11%N;
     spec_parentApp := 1; spec_image := Some "registry/sensors:abc";
     spec_config := None; spec_environment := Some {[ "MODE" := "fast" ]} |}.

Definition exampleDevicesOnly : option Desired :=
  Some {| des_apps := None; des_devices := Some [] |}.

Definition exampleAppsOnly : option Desired :=
  Some {| des_apps := Some [(8%N, exampleAppSpec)]; des_devices := None |}.

Definition exampleDatabase : Database :=
  {| dependentAppTarget := {[ 7%N := exampleApp ]};
     dependentDeviceTarget := {[ "d1" := exampleDeviceTarget ]} |}.

(** A desired state with the app and the device of the example, and one
    with a device but no apps. *)
Definition exampleDeviceSpec : DeviceSpec :=
  {| dspec_name := Some "probe";
     dspec_apps :=
       Some [(8%N, {| asg_commit := Some "stale"; asg_config := None;
                      asg_environment := Some {[ "ZONE" := "b" ]} |})] |}.

Definition exampleDesired : option Desired :=
  Some {| des_apps := Some [(8%N, exampleAppSpec)];
          des_devices := Some [("d1", exampleDeviceSpec)] |}.

Definition exampleDeviceWithoutApps : option Desired :=
  Some {| des_apps := None; des_devices := Some [("d1", exampleDeviceSpec)] |}.

(** *** The current tables *)

(** A row of [dependentDevice], with the columns this file reads or
    writes.  A column that holds JSON text is kept as the value it
    encodes, [None] for NULL. *)
Record DeviceRow := {
  row_uuid : string;
  row_appId : N;
  row_name : option string;
  row_device_type : option string;
  row_deviceId : option N;
  row_is_online : option bool;
  row_status : option string;
  row_lock_expiry_date : option Z;
  row_markedForDeletion : bool;
  row_commit : option string;
  row_config : option Dict;
  row_environment : option Dict;
  row_targetCommit : option string;
  row_targetConfig : option Dict;
  row_targetEnvironment : option Dict
}.

(** [dependentApp] and [dependentDevice], each as the rows a [select()]
    returns, in that order. *)
Record Tables := {
  dependentApp : list DependentApp;
  dependentDevice : list DeviceRow
}.

(** The callback of [_.map(devicesFromDB, ...)] in [getCurrentStates]. *)
Definition deviceFromRow (device : DeviceRow) : Device :=
  {| uuid := row_uuid device;
     dev_name := row_name device;
     lock_expiry_date := row_lock_expiry_date device;
     markedForDeletion := row_markedForDeletion device;
     dev_apps :=
       {[ row_appId device :=
            {| dev_commit := row_commit device;
               dev_config := row_config device;
               dev_environment := row_environment device;
               targetCommit := row_targetCommit device;
               targetEnvironment := row_targetEnvironment device;
               targetConfig := row_targetConfig device |} ]} |}.

(** [getCurrentStates]: [{ apps, devices }] read from the two tables. *)
Definition getCurrentStates (tables : Tables) : Dependent Device :=
  {| dep_apps := Some (dependentApp tables);
     dep_devices := Some (map deviceFromRow (dependentDevice tables)) |}.

(** *** The executors *)

(** What [actionExecutors.removeDependentApp] leaves: the tables, the
    file system, and whether the step resolved. *)
Record Removal := {
  rm_tables : Tables;
  rm_files : FileSystem;
  rm_resolved : bool
}.

(** [actionExecutors.removeDependentApp]: inside one transaction the rows
    of the app and of its devices are deleted, then [cleanupTars(step.appId)]
    runs without a commit.  Its promise is the last link of the chain the
    transaction waits for: when it rejects, the transaction is rolled back
    and the rows stay; what was unlinked stays unlinked. *)
Definition removeDependentApp (pinned : string → string → bool) (appId : N)
    (tables : Tables) (fs : FileSystem) : Removal :=
  let deleted :=
    {| dependentApp :=
         List.filter (λ app, negb (bool_decide (Proxyvisor.appId app = appId)))
                     (dependentApp tables);
       dependentDevice :=
         List.filter (λ row, negb (bool_decide (row_appId row = appId)))
                     (dependentDevice tables) |} in
  let cleanup := cleanupTarsOrReject pinned appId None fs in
  {| rm_tables := if resolved cleanup then deleted else tables;
     rm_files := remaining cleanup;
     rm_resolved := resolved cleanup |}.

(** The parent application as [applications.getTargetApp] returns it. *)
Record Service := { service_image : string }.

Record ParentApp := {
  pa_services : option (list Service);
  pa_config : option Dict
}.

(** [vars.BALENA_DEPENDENT_DEVICES_HOOK_ADDRESS ??
     vars.RESIN_DEPENDENT_DEVICES_HOOK_ADDRESS]. *)
Definition hookAddress (vars : Dict) : option string :=
  match vars !! "BALENA_DEPENDENT_DEVICES_HOOK_ADDRESS" with
  | Some address => Some address
  | None => vars !! "RESIN_DEPENDENT_DEVICES_HOOK_ADDRESS"
  end.

(** The first address that is not null or undefined. *)
Fixpoint firstAddress (addresses : list (option string)) : option string :=
  match addresses with
  | [] => None
  | Some address :: _ => Some address
  | None :: rest => firstAddress rest
  end.

Section endpoint.
(** [applications.getTargetApp], [docker.getImageEnv] and
    [constants.proxyvisorHookReceiver], of other modules. *)
Variable getTargetApp : N → option ParentApp.
Variable getImageEnv : string → Dict.
Variable proxyvisorHookReceiver : string.

(** [getHookEndpoint(appId)].  Destructuring the first row throws when the
    app has no row. *)
Definition getHookEndpoint (appId : N) (tables : Tables) : result string :=
  match List.filter (λ app, bool_decide (Proxyvisor.appId app = appId))
                    (dependentApp tables) with
  | [] => Throw TypeError
  | row :: _ =>
      let parentApp := getTargetApp (parentApp row) in
      let imageEnvs :=
        map (λ service, getImageEnv (service_image service))
            (default [] (parentApp ≫= pa_services)) in
      let imageHookAddresses := map hookAddress imageEnvs in
      match firstAddress imageHookAddresses with
      | Some address => Ok address
      | None =>
          Ok (default (proxyvisorHookReceiver +:+ "/v1/devices/")
                      (hookAddress (default ∅ (parentApp ≫= pa_config))))
      end
  end.
End endpoint.

(** [sendDeleteHook]: the device rows afterwards and whether an error was
    logged. *)
Definition sendDeleteHook (uuid : string) (timeout : Z) (outcome : HookOutcome)
    (rows : list DeviceRow) : list DeviceRow * bool :=
  match outcome with
  | HookFailed => (rows, true)
  | HookReplied latency statusCode _ =>
      if decide (timeout ≤ latency) then (rows, true)
      else if decide (statusCode = 200) then
        (List.filter (λ row, negb (bool_decide (row_uuid row = uuid))) rows, false)
      else (rows, true)
  end.

Inductive HookMethod := PUT | DELETE.

(** A hook request as it left: method, url, time. *)
Record HookRequest := {
  hr_method : HookMethod;
  hr_uuid : string;
  hr_url : string;
  hr_time : Z
}.

(** What the delivery of hooks reads from outside: the receiver's answer
    to a request, the time until the call has settled, and how long after
    the first reading of the clock (or after the delay was due) the
    continuation reads it again. *)
Record HookEnv := {
  respond : HookMethod → string → Z → HookOutcome;
  settles : HookMethod → string → Z → N;
  late : Z → N
}.

(** The state the delivery works on: [this.acknowledgedState],
    [this.lastRequestForDevice], the device rows, [Date.now()], and the
    requests sent so far. *)
Record Delivery := {
  dl_acknowledged : Acknowledged;
  dl_lastRequest : gmap string Z;
  dl_rows : list DeviceRow;
  dl_now : Z;
  dl_sent : list HookRequest
}.

(** The callback of [Promise.mapSeries] in
    [actionExecutors.sendDependentHooks], for one device. *)
Definition deliverHook (env : HookEnv) (apiTimeout : Z) (endpoint : string)
    (device : HookDevice) (s : Delivery) : Delivery :=
  let uuid := hook_uuid device in
  let woken :=
    match dl_lastRequest s !! uuid with
    | Some last =>
        let diff := dl_now s - last in
        if decide (diff < 30000) then dl_now s + (30001 - diff) else dl_now s
    | None => dl_now s
    end in
  let sentAt := woken + Z.of_N (late env woken) in
  let method := if hook_markedForDeletion device then DELETE else PUT in
  let url := endpoint +:+ uuid in
  let outcome := respond env method url sentAt in
  let request := {| hr_method := method; hr_uuid := uuid; hr_url := url;
                    hr_time := sentAt |} in
  let settled := sentAt + Z.of_N (settles env method url sentAt) in
  if hook_markedForDeletion device then
    {| dl_acknowledged := dl_acknowledged s;
       dl_lastRequest := <[uuid := sentAt]> (dl_lastRequest s);
       dl_rows := (sendDeleteHook uuid apiTimeout outcome (dl_rows s)).1;
       dl_now := settled;
       dl_sent := dl_sent s ++ [request] |}
  else
    {| dl_acknowledged :=
         (sendUpdate device apiTimeout outcome (dl_acknowledged s)).1;
       dl_lastRequest := <[uuid := sentAt]> (dl_lastRequest s);
       dl_rows := dl_rows s;
       dl_now := settled;
       dl_sent := dl_sent s ++ [request] |}.

(** [actionExecutors.sendDependentHooks]: nothing is sent unless both
    [apiTimeout] ([None]: the read rejects) and the endpoint are there;
    then the devices of the step are served one after the other.  Which
    of two rejections [Promise.join] reports is left to the scheduler;
    the model reports that of the configuration. *)
Definition sendDependentHooks (env : HookEnv) (apiTimeout : option Z)
    (endpoint : result string) (devices : list HookDevice) (s : Delivery)
    : Delivery * result () :=
  match apiTimeout, endpoint with
  | None, _ => (s, Throw ConfigError)
  | Some _, Throw e => (s, Throw e)
  | Some timeout, Ok endpoint =>
      (foldl (λ s device, deliverHook env timeout endpoint device s) s devices,
       Ok ())
  end.

(** Two requests to one device are at least 30 seconds apart. *)
Definition apart (sent : list HookRequest) : Prop :=
  ∀ i j a b, (i < j)%nat →
    sent !! i = Some a → sent !! j = Some b →
    hr_uuid a = hr_uuid b → hr_time a + 30000 ≤ hr_time b.

(** Requests to one device are at least 30 seconds apart, and
    [lastRequestForDevice] holds the time of the latest one. *)
Definition spaced (s : Delivery) : Prop :=
  apart (dl_sent s) ∧
  (∀ a, a ∈ dl_sent s → is_Some (dl_lastRequest s !! hr_uuid a)) ∧
  (∀ a last, a ∈ dl_sent s → dl_lastRequest s !! hr_uuid a = Some last →
     hr_time a = last ∨ hr_time a + 30000 ≤ last).

(** The rows a DELETE hook may remove: those of the devices whose request
    was answered with 200 within the timeout. *)
Definition confirmedDeletion (env : HookEnv) (apiTimeout : Z)
    (request : HookRequest) : bool :=
  match hr_method request,
        respond env (hr_method request) (hr_url request) (hr_time request) with
  | DELETE, HookReplied latency statusCode _ =>
      bool_decide (latency < apiTimeout) && bool_decide (statusCode = 200)
  | _, _ => false
  end.

Definition deliveryAtStart : Delivery :=
  {| dl_acknowledged := ∅; dl_lastRequest := ∅; dl_rows := [];
     dl_now := 0; dl_sent := [] |}.

(** A parent app with two services, the second of which names a hook
    address in its image, and the table with the example app. *)
Definition exampleParentApp : ParentApp :=
  {| pa_services := Some [{| service_image := "registry/main:1" |};
                          {| service_image := "registry/bridge:1" |}];
     pa_config :=
       Some {[ "BALENA_DEPENDENT_DEVICES_HOOK_ADDRESS" := "http://config/v1/" ]} |}.

Definition exampleImageEnv (image : string) : Dict :=
  if decide (image = "registry/bridge:1")
  then {[ "RESIN_DEPENDENT_DEVICES_HOOK_ADDRESS" := "http://bridge/v1/devices/" ]}
  else ∅.

Definition exampleDeviceRow : DeviceRow :=
  {| row_uuid := "d1"; row_appId := 7; row_name := Some "probe";
     row_device_type := Some "generic"; row_deviceId := Some 41%N;
     row_is_online := Some true; row_status := Some "Idle";
     row_lock_expiry_date := None; row_markedForDeletion := false;
     row_commit := Some "old"; row_config := Some ∅;
     row_environment := Some ∅;
     row_targetCommit := Some "abc"; row_targetConfig := Some ∅;
     row_targetEnvironment := Some ∅ |}.

Definition exampleTables : Tables :=
  {| dependentApp := [exampleApp]; dependentDevice := [exampleDeviceRow] |}.

(** A receiver that answers every hook with 200 after 50 ms, and timers
    that fire 3 ms late. *)
Definition exampleHookEnv : HookEnv :=
  {| respond := λ _ _ _, HookReplied 50 200 "OK";
     settles := λ _ _ _, 50%N;
     late := λ _, 3%N |}.

End Proxyvisor.

(** * Properties of the target-state module *)

Module TargetStateProofs.
Import TargetState.

(** Induction over a value and, through [Forall], over its children. *)
Lemma jsval_nested_ind (P : jsval → Prop) :
  (∀ p, P (VPrim p)) →
  (∀ a k fs, Forall (λ kv, P kv.2) fs → P (VNode a k fs)) →
  ∀ v, P v.
Proof.
  intros Hprim Hnode. fix IH 1. intros [p | a k fs].
  - apply Hprim.
  - apply Hnode. induction fs as [| [key v] fs IHfs]; constructor.
    + apply IH.
    + apply IHfs.
Qed.

Lemma json_nested_ind (P : json → Prop) :
  (∀ p, P (JPrim p)) →
  (∀ k fs, Forall (λ kv, P kv.2) fs → P (JNode k fs)) →
  ∀ j, P j.
Proof.
  intros Hprim Hnode. fix IH 1. intros [p | k fs].
  - apply Hprim.
  - apply Hnode. induction fs as [| [key j] fs IHfs]; constructor.
    + apply IH.
    + apply IHfs.
Qed.

(** What a visit of all children gives, from what each visit gives. *)
Section mapFields_facts.
Context {A : Type} (f : A → addr → jsval * addr) (g : A → json).

Lemma mapFields_fresh (fs : list (string * A)) :
  Forall (λ kv, fresh_copy f g kv.2) fs →
  ∀ n,
    map (λ kv, (kv.1, content kv.2)) (mapFields f fs n).1
      = map (λ kv, (kv.1, g kv.2)) fs ∧
    (n ≤ (mapFields f fs n).2)%nat ∧
    ∀ a, a ∈ concat (map (λ kv, addrs kv.2) (mapFields f fs n).1) →
         (n ≤ a < (mapFields f fs n).2)%nat.
Proof.
  induction 1 as [| [key x] fs Hx _ IH]; intros n; simpl.
  - split; [done | split; [lia |]]. intros a Ha. by apply elem_of_nil in Ha.
  - destruct (Hx n) as (Hc & Hle & Hin). simpl in *.
    destruct (f x n) as [y n1] eqn:Ey. simpl in *.
    destruct (IH n1) as (Hcs & Hles & Hins).
    destruct (mapFields f fs n1) as [ys n2] eqn:Eys. simpl in *.
    split; [by rewrite Hc, Hcs | split; [lia |]].
    intros a Ha. apply elem_of_app in Ha as [Ha | Ha].
    + apply Hin in Ha. lia.
    + apply Hins in Ha. lia.
Qed.
End mapFields_facts.

Lemma alloc_fresh (j : json) : fresh_copy alloc (λ j, j) j.
Proof.
  induction j as [p | k fs IH] using json_nested_ind; intros n; simpl.
  - split; [done | split; [lia |]]. intros a Ha. by apply elem_of_nil in Ha.
  - destruct (mapFields_fresh alloc (λ j, j) fs IH (S n)) as (Hc & Hle & Hin).
    destruct (mapFields alloc fs (S n)) as [vs n'] eqn:E. simpl in *.
    split; [| split; [lia |]].
    + rewrite Hc. f_equal. clear.
      induction fs as [| [key x] fs IHfs]; simpl; [done | by rewrite IHfs].
    + intros a Ha. apply elem_of_cons in Ha as [-> | Ha]; [lia |].
      apply Hin in Ha. lia.
Qed.

Lemma cloneDeep_fresh (v : jsval) : fresh_copy cloneDeep content v.
Proof.
  induction v as [p | a0 k fs IH] using jsval_nested_ind; intros n; simpl.
  - split; [done | split; [lia |]]. intros a Ha. by apply elem_of_nil in Ha.
  - destruct (mapFields_fresh cloneDeep content fs IH (S n)) as (Hc & Hle & Hin).
    destruct (mapFields cloneDeep fs (S n)) as [vs n'] eqn:E. simpl in *.
    split; [by rewrite Hc | split; [lia |]].
    intros a Ha. apply elem_of_cons in Ha as [-> | Ha]; [lia |].
    apply Hin in Ha. lia.
Qed.

(** The copy emitted by a storing fetch shares no object with the stored
    body, and both have the content of the reply. *)
Lemma alloc_then_clone (j : json) (n : addr) :
  let b := (alloc j n).1 in
  let copy := (cloneDeep b (alloc j n).2).1 in
  content b = j ∧ content copy = j ∧ ¬ aliases copy b.
Proof.
  simpl. destruct (alloc_fresh j n) as (Hc & _ & Hin).
  destruct (cloneDeep_fresh (alloc j n).1 (alloc j n).2) as (Hc' & _ & Hin').
  split; [done | split; [congruence |]].
  intros (a & Ha1 & Ha2). apply Hin in Ha2. apply Hin' in Ha1. lia.
Qed.

(** The request that [update] issues never carries a header, whatever the
    cache holds. *)
Lemma update_sends_bare_request force isFromApi env st cfg base :
  getMany env = Some cfg →
  apiEndpoint cfg = CfgString base →
  sent (update force isFromApi env st).1 =
    sent st ++ [{| req_base := base; req_path := statePath (uuid cfg);
                   req_params := {| json_flag := true; req_headers := ∅ |} |}].
Proof.
  intros Hcfg Hbase. unfold update, fetchAndStore. rewrite Hcfg, Hbase.
  destruct (remote env _) as [r |]; [| done].
  repeat case_decide; try done.
  destruct (alloc _ _) as [b n1]. by destruct (cloneDeep _ _) as [copy n2].
Qed.

(** A 304 that arrives in time changes nothing but the log of requests
    and the time of the last fetch. *)
Lemma update_not_modified force isFromApi env st cfg base r :
  getMany env = Some cfg →
  apiEndpoint cfg = CfgString base →
  (∀ req, req_base req = base → req_path req = statePath (uuid cfg) →
          remote env req = Replied r) →
  latency r < apiTimeout cfg →
  statusCode r = 304 →
  ∃ st',
    update force isFromApi env st = (st', Ok ()) ∧
    cache st' = cache st ∧
    emitted st' = emitted st ∧
    lastFetch st' = Some (hrtime env).
Proof.
  intros Hcfg Hbase Hremote Hlat Hstatus.
  unfold update, fetchAndStore. rewrite Hcfg, Hbase, Hremote by done.
  rewrite decide_False by lia. rewrite decide_True by done.
  by eexists.
Qed.

(** C2.  When the endpoint answers a GET of the state URL with status 200
    in time, [update] succeeds, the cache becomes exactly the reply's body
    and its [etag] header, and one event is added: it carries the flags and
    a value with the content of the body that shares no object with the
    cached one. *)
Theorem update_200_replaces_cache_and_emits_once
    force isFromApi env st cfg base r :
  getMany env = Some cfg →
  apiEndpoint cfg = CfgString base →
  (∀ req, req_base req = base → req_path req = statePath (uuid cfg) →
          remote env req = Replied r) →
  latency r < apiTimeout cfg →
  statusCode r = 200 →
  ∃ b copy st',
    update force isFromApi env st = (st', Ok ()) ∧
    cache st' = Some {| etag := headers r !! "etag"; cache_body := b |} ∧
    content b = body r ∧
    emitted st' = emitted st ++
      [{| ev_targetState := copy; ev_force := force; ev_isFromApi := isFromApi |}] ∧
    content copy = body r ∧
    ¬ aliases copy b.
Proof.
  intros Hcfg Hbase Hremote Hlat Hstatus.
  unfold update, fetchAndStore. rewrite Hcfg, Hbase, Hremote by done.
  rewrite decide_False by lia. rewrite decide_False by lia.
  destruct (alloc_then_clone (body r) (next st)) as (Hb & Hcopy & Hfresh).
  destruct (alloc (body r) (next st)) as [b n1]. simpl in *.
  destruct (cloneDeep b n1) as [copy n2]. simpl in *.
  by eexists b, copy, _.
Qed.

Lemma update_200_replaces_cache_and_emits_once_witness :
  ∃ b copy st',
    update false true exampleFixedEnv initialState = (st', Ok ()) ∧
    cache st' = Some {| etag := Some (HString "v2"); cache_body := b |} ∧
    content b = exampleDocument ∧
    emitted st' =
      [{| ev_targetState := copy; ev_force := false; ev_isFromApi := true |}] ∧
    content copy = exampleDocument ∧
    ¬ aliases copy b.
Proof.
  apply (update_200_replaces_cache_and_emits_once false true exampleFixedEnv
           initialState exampleConfig "https://api.example.com" exampleReply).
  - reflexivity.
  - reflexivity.
  - intros req _ _. reflexivity.
  - simpl. lia.
  - reflexivity.
Defined.

(** C1, at a concrete device.  After a first fetch the cache holds the
    string etag "v1", and [params] built from it has the If-None-Match
    header; the second [update] against the same, unchanged document still
    sends no such header, so the endpoint answers 200 again: the cache is
    replaced by a new object and a second event is emitted. *)
Theorem update_drops_the_cached_etag :
  let st1 := (update false false exampleEnv initialState).1 in
  let st2 := (update false false exampleEnv st1).1 in
  (cache st1 ≫= etag) = Some (HString "v1") ∧
  req_headers (conditionalParams (cache st1)) !! "If-None-Match" = Some "v1" ∧
  Forall (λ req, req_headers (req_params req) !! "If-None-Match" = None)
         (sent st2) ∧
  length (sent st2) = 2%nat ∧
  (∃ r, remote exampleEnv
          {| req_base := "https://api.example.com";
             req_path := statePath "1234abcd";
             req_params := conditionalParams (cache st1) |} = Replied r ∧
        statusCode r = 304) ∧
  cache st2 ≠ cache st1 ∧
  length (emitted st1) = 1%nat ∧
  length (emitted st2) = 2%nat.
Proof.
  vm_compute. repeat split; try done.
  - repeat constructor.
  - eexists. split; reflexivity.
Qed.

(** *** Binary64 arithmetic *)










(** *** Rounding to the nearest integer, ties to even *)






(** *** Rounding to binary64 *)















(** On the samples, [fmul] and [fadd] give what the specification of
    binary64 multiplication and addition gives. *)
Example round64_agrees_with_SpecFloat :
  Forall (λ '(x, y, z),
            (value (SFadd 53 1024 (SFmul 53 1024 x y) z)
               == fadd (fmul (value x) (value y)) (value z))%Q) samples.
Proof. repeat constructor. Qed.

(** *** The retry delay *)

Section poll_facts.
Variable maxApiJitterDelay : Z.

Lemma pollOnce_failure pe ps interval :
  appUpdatePollInterval pe = Some interval →
  updateFails pe →
  ∃ st',
    pollOnce maxApiJitterDelay false pe ps =
      (inject_Z (Z.min interval (15000 * 2 ^ Z.of_N (targetStateFetchErrors ps))),
       {| targetStateFetchErrors := targetStateFetchErrors ps + 1;
          target := st' |}).
Proof.
  intros Hint Hfail. unfold pollOnce. rewrite Hint.
  specialize (Hfail (target ps)).
  destruct (update false false (updateEnv pe) (target ps)) as [st' [[] | e]];
    [done |]. by exists st'.
Qed.



Lemma poll_length skip envs ps :
  length (poll maxApiJitterDelay skip envs ps).1 = length envs.
Proof.
  revert skip ps. induction envs as [| pe envs IH]; intros skip ps; simpl.
  - done.
  - destruct (pollOnce _ _ pe ps) as [slept ps1]. specialize (IH false ps1).
    destruct (poll _ _ envs ps1). simpl in *. by rewrite IH.
Qed.

(** A run of failed fetches, started with [k] failures already counted:
    the n-th sleep is capped at the interval read in that pass, and the
    counter ends [length fails] higher. *)
Lemma poll_failures fails :
  Forall (λ pe, is_Some (appUpdatePollInterval pe) ∧ updateFails pe) fails →
  ∀ ps,
    targetStateFetchErrors (poll maxApiJitterDelay false fails ps).2 =
      (targetStateFetchErrors ps + N.of_nat (length fails))%N ∧
    ∀ n pe interval,
      fails !! n = Some pe →
      appUpdatePollInterval pe = Some interval →
      (poll maxApiJitterDelay false fails ps).1 !! n =
        Some (inject_Z (Z.min interval
                (15000 * 2 ^ (Z.of_N (targetStateFetchErrors ps) + Z.of_nat n)))).
Proof.
  induction 1 as [| pe fails [[i Hi] Hfail] _ IH]; intros ps.
  - simpl. split; [lia |]. intros n pe interval Hn. by destruct n.
  - cbn [poll]. destruct (pollOnce_failure pe ps i Hi Hfail) as [st' ->].
    destruct (IH {| targetStateFetchErrors := targetStateFetchErrors ps + 1;
                    target := st' |}) as [Hcount Hsleeps].
    destruct (poll _ _ fails _) as [sleeps ps2].
    cbn [fst snd targetStateFetchErrors] in *.
    split; [rewrite Hcount, length_cons; lia |].
    intros [| n] pe' interval Hn Hint.
    + injection Hn as <-. rewrite Hi in Hint. injection Hint as <-.
      replace (Z.of_N (targetStateFetchErrors ps) + Z.of_nat 0)
        with (Z.of_N (targetStateFetchErrors ps)) by lia.
      reflexivity.
    + change ((inject_Z (Z.min i (15000 * 2 ^ Z.of_N (targetStateFetchErrors ps)))
                 :: sleeps) !! S n) with (sleeps !! n).
      rewrite (Hsleeps n pe' interval Hn Hint).
      replace (Z.of_N (targetStateFetchErrors ps + 1) + Z.of_nat n)
        with (Z.of_N (targetStateFetchErrors ps) + Z.of_nat (S n)) by lia.
      reflexivity.
Qed.

End poll_facts.



(** *** Every way out of [update] *)

(** [update] leaves the cache, the events and the allocator alone, or it
    stores a reply: the body in fresh objects, and after it the copy that
    is emitted. *)
Lemma update_cases force isFromApi env st :
  (cache (update force isFromApi env st).1 = cache st ∧
   emitted (update force isFromApi env st).1 = emitted st ∧
   next (update force isFromApi env st).1 = next st) ∨
  (∃ r,
     (update force isFromApi env st).2 = Ok () ∧
     cache (update force isFromApi env st).1
       = Some {| etag := headers r !! "etag";
                 cache_body := (alloc (body r) (next st)).1 |} ∧
     emitted (update force isFromApi env st).1
       = emitted st ++
         [{| ev_targetState :=
               (cloneDeep (alloc (body r) (next st)).1
                          (alloc (body r) (next st)).2).1;
             ev_force := force; ev_isFromApi := isFromApi |}] ∧
     next (update force isFromApi env st).1
       = (cloneDeep (alloc (body r) (next st)).1
                    (alloc (body r) (next st)).2).2).
Proof.
  unfold update, fetchAndStore.
  destruct (getMany env) as [cfg |]; [| by left].
  destruct (apiEndpoint cfg) as [base |]; [| by left].
  destruct (remote env _) as [r |]; [| by left].
  case_decide; [by left |]. case_decide; [by left |].
  right. exists r.
  destruct (alloc (body r) (next st)) as [b n1]. cbn [fst snd].
  by destruct (cloneDeep b n1) as [copy n2].
Qed.

(** X1.  Whatever happens inside, [update] records the time of the
    attempt; and when it throws (configuration, endpoint type, transport,
    timeout) the cache and the emitted events are what they were. *)
Theorem update_records_attempt_and_fails_clean force isFromApi env st :
  lastFetch (update force isFromApi env st).1 = Some (hrtime env) ∧
  (isOk (update force isFromApi env st).2 = false →
     cache (update force isFromApi env st).1 = cache st ∧
     emitted (update force isFromApi env st).1 = emitted st).
Proof.
  split.
  - unfold update. by destruct (fetchAndStore force isFromApi env st).
  - intros Hfail.
    destruct (update_cases force isFromApi env st)
      as [(Hc & He & _) | (r & Hok & _)]; [done |].
    by rewrite Hok in Hfail.
Qed.

(** X2.  The error of each failing path, and the requests it has sent by
    then: none when the configuration cannot be read or [apiEndpoint] is
    not a string, one when the transport fails or the reply comes at or
    after [apiTimeout]. *)
Theorem update_errors force isFromApi env st :
  (getMany env = None →
     (update force isFromApi env st).2 = Throw ConfigError ∧
     sent (update force isFromApi env st).1 = sent st) ∧
  (∀ cfg, getMany env = Some cfg → apiEndpoint cfg = CfgOther →
     (update force isFromApi env st).2 = Throw InternalInconsistencyError ∧
     sent (update force isFromApi env st).1 = sent st) ∧
  (∀ cfg base, getMany env = Some cfg → apiEndpoint cfg = CfgString base →
     (∀ req, remote env req = Failed) →
     (update force isFromApi env st).2 = Throw RequestError ∧
     length (sent (update force isFromApi env st).1) = S (length (sent st))) ∧
  (∀ cfg base r, getMany env = Some cfg → apiEndpoint cfg = CfgString base →
     (∀ req, remote env req = Replied r) →
     apiTimeout cfg ≤ latency r →
     (update force isFromApi env st).2 = Throw TimeoutError ∧
     length (sent (update force isFromApi env st).1) = S (length (sent st))).
Proof.
  unfold update, fetchAndStore. split; [| split; [| split]].
  - by intros ->.
  - by intros cfg -> ->.
  - intros cfg base -> -> Hremote. rewrite Hremote. cbn.
    rewrite length_app. cbn. split; [done | lia].
  - intros cfg base r -> -> Hremote Hlate. rewrite Hremote.
    rewrite decide_True by done. cbn.
    rewrite length_app. cbn. split; [done | lia].
Qed.

(** X3.  [update] looks at the status only to tell 304 from the rest: a
    reply in time with any other status, a 500 as well, becomes the cache
    (its body and its etag header, if any) and is emitted once. *)
Theorem update_stores_any_status_but_304 force isFromApi env st cfg base r :
  getMany env = Some cfg →
  apiEndpoint cfg = CfgString base →
  (∀ req, remote env req = Replied r) →
  latency r < apiTimeout cfg →
  statusCode r ≠ 304 →
  (update force isFromApi env st).2 = Ok () ∧
  (∃ c, cache (update force isFromApi env st).1 = Some c ∧
        etag c = headers r !! "etag" ∧
        content (cache_body c) = body r) ∧
  (∃ e, emitted (update force isFromApi env st).1 = emitted st ++ [e] ∧
        content (ev_targetState e) = body r ∧
        ev_force e = force ∧ ev_isFromApi e = isFromApi).
Proof.
  intros Hcfg Hbase Hremote Hlat Hstatus.
  unfold update, fetchAndStore. rewrite Hcfg, Hbase, Hremote.
  rewrite decide_False by lia. rewrite decide_False by done.
  destruct (alloc_then_clone (body r) (next st)) as (Hb & Hcopy & _).
  destruct (alloc (body r) (next st)) as [b n1]. cbn [fst snd] in *.
  destruct (cloneDeep b n1) as [copy n2]. cbn [fst snd] in *.
  split; [done |]. split; by eexists.
Qed.

Lemma update_stores_any_status_but_304_witness :
  (update false false exampleErrorEnv initialState).2 = Ok () ∧
  (∃ c, cache (update false false exampleErrorEnv initialState).1 = Some c ∧
        etag c = None ∧
        content (cache_body c) = body exampleErrorReply) ∧
  (∃ e, emitted (update false false exampleErrorEnv initialState).1 = [] ++ [e] ∧
        content (ev_targetState e) = body exampleErrorReply ∧
        ev_force e = false ∧ ev_isFromApi e = false).
Proof.
  apply (update_stores_any_status_but_304 false false exampleErrorEnv
           initialState exampleConfig "https://api.example.com" exampleErrorReply).
  - reflexivity.
  - reflexivity.
  - intros req. reflexivity.
  - simpl. lia.
  - simpl. lia.
Defined.

(** *** Objects of the cache and objects handed out *)

Lemma below_mono n m v : (n ≤ m)%nat → below n v → below m v.
Proof. intros Hnm Hv a Ha. specialize (Hv a Ha). lia. Qed.

Lemma separated_initial : separated initialState.
Proof.
  split; [done |]. split; [by intros e ?%elem_of_nil |]. done.
Qed.

Lemma update_separated force isFromApi env st :
  separated st →
  separated (update force isFromApi env st).1 ∧
  (next st ≤ next (update force isFromApi env st).1)%nat.
Proof.
  intros (Hcache & Hevents & Hapart).
  destruct (update_cases force isFromApi env st)
    as [(Hc & He & Hn) | (r & _ & Hc & He & Hn)].
  - unfold separated. rewrite Hc, He, Hn. by repeat split.
  - destruct (alloc_fresh (body r) (next st)) as (_ & Hle1 & Hin1).
    destruct (cloneDeep_fresh (alloc (body r) (next st)).1
                (alloc (body r) (next st)).2) as (_ & Hle2 & Hin2).
    unfold separated. rewrite Hc, He, Hn. repeat split.
    + intros c [= <-] a Ha. cbn in Ha. apply Hin1 in Ha. lia.
    + intros e [He' | ->%list_elem_of_singleton]%elem_of_app a Ha.
      * specialize (Hevents e He' a Ha). lia.
      * cbn in Ha. apply Hin2 in Ha. lia.
    + intros c e [= <-] [He' | ->%list_elem_of_singleton]%elem_of_app
        (a & Ha1 & Ha2); cbn in Ha2; apply Hin1 in Ha2.
      * specialize (Hevents e He' a Ha1). lia.
      * cbn in Ha1. apply Hin2 in Ha1. lia.
    + lia.
Qed.

(** What [get] does once there is a cache to read. *)
Lemma get_reads_cache env st st1 c :
  (match cache st with
   | None => update false false env st
   | Some _ => (st, Ok ())
   end) = (st1, Ok ()) →
  cache st1 = Some c →
  get env st =
    ({| cache := cache st1; lastFetch := lastFetch st1; emitted := emitted st1;
        sent := sent st1;
        next := (cloneDeep (cache_body c) (next st1)).2 |},
     Ok (cloneDeep (cache_body c) (next st1)).1).
Proof.
  intros Hfirst Hc. unfold get. rewrite Hfirst, Hc.
  by destruct (cloneDeep (cache_body c) (next st1)).
Qed.

Lemma get_separated env st : separated st → separated (get env st).1.
Proof.
  intros Hst.
  assert (∃ st1 r,
            (match cache st with
             | None => update false false env st
             | Some _ => (st, Ok ())
             end) = (st1, r) ∧ separated st1) as (st1 & r & Hfirst & Hst1).
  { destruct (cache st) eqn:Hc.
    - by exists st, (Ok ()).
    - destruct (update_separated false false env st Hst) as [Hsep _].
      destruct (update false false env st) as [st1 r]. by exists st1, r. }
  destruct r as [[] | e]; [| by unfold get; rewrite Hfirst].
  destruct (cache st1) as [c |] eqn:Hc; [| by unfold get; rewrite Hfirst, Hc].
  rewrite (get_reads_cache env st st1 c Hfirst Hc). cbn [fst].
  destruct Hst1 as (Hcache & Hevents & Hapart).
  destruct (cloneDeep_fresh (cache_body c) (next st1)) as (_ & Hle & _).
  unfold separated. cbn. rewrite Hc. repeat split.
  - intros c' [= <-]. eapply below_mono; [done |]. by apply Hcache.
  - intros e He. eapply below_mono; [done |]. by apply Hevents.
  - intros c' e [= <-]. by apply Hapart.
Qed.

Lemma run_separated calls st : separated st → separated (run calls st).
Proof.
  revert st. induction calls as [| c calls IH]; intros st Hst; [done |].
  cbn. apply IH. destruct c as [force isFromApi env | env]; cbn.
  - by apply update_separated.
  - by apply get_separated.
Qed.

(** X4.  After any sequence of [update] and [get] calls from the start of
    the process, no value that was emitted shares an object with the cached
    body: a listener may change what it was given without touching the
    cache. *)
Theorem emitted_values_stay_apart_from_cache calls :
  separated (run calls initialState).
Proof. apply run_separated, separated_initial. Qed.

(** X5.  Once there is a cache, [get] asks the endpoint nothing, emits
    nothing and leaves the cache alone; what it returns has the content of
    the cached body and shares no object with it nor with any emitted
    value. *)
Theorem get_returns_fresh_copy_of_cache calls env c :
  cache (run calls initialState) = Some c →
  ∃ copy,
    (get env (run calls initialState)).2 = Ok copy ∧
    content copy = content (cache_body c) ∧
    ¬ aliases copy (cache_body c) ∧
    (∀ e, e ∈ emitted (run calls initialState) →
          ¬ aliases copy (ev_targetState e)) ∧
    cache (get env (run calls initialState)).1 = Some c ∧
    sent (get env (run calls initialState)).1 = sent (run calls initialState) ∧
    emitted (get env (run calls initialState)).1
      = emitted (run calls initialState) ∧
    lastFetch (get env (run calls initialState)).1
      = lastFetch (run calls initialState).
Proof.
  intros Hc.
  destruct (run_separated calls initialState separated_initial)
    as (Hcache & Hevents & _).
  generalize dependent (run calls initialState). intros st Hc Hcache Hevents.
  rewrite (get_reads_cache env st st c) by (by rewrite ?Hc).
  destruct (cloneDeep_fresh (cache_body c) (next st)) as (Hcontent & _ & Hin).
  exists (cloneDeep (cache_body c) (next st)).1. cbn. repeat split; try done.
  - intros (a & Ha1 & Ha2). apply Hin in Ha1.
    specialize (Hcache c Hc a Ha2). lia.
  - intros e He (a & Ha1 & Ha2). apply Hin in Ha1.
    specialize (Hevents e He a Ha2). lia.
Qed.

Lemma get_returns_fresh_copy_of_cache_witness :
  let st := run [CallUpdate false true exampleFixedEnv] initialState in
  ∃ c copy,
    cache st = Some c ∧
    (get exampleOfflineEnv st).2 = Ok copy ∧
    content copy = content (cache_body c) ∧
    ¬ aliases copy (cache_body c) ∧
    (∀ e, e ∈ emitted st → ¬ aliases copy (ev_targetState e)) ∧
    cache (get exampleOfflineEnv st).1 = Some c ∧
    sent (get exampleOfflineEnv st).1 = sent st ∧
    emitted (get exampleOfflineEnv st).1 = emitted st ∧
    lastFetch (get exampleOfflineEnv st).1 = lastFetch st.
Proof.
  eexists.
  refine ((λ H, match H with ex_intro _ copy P => ex_intro _ copy (conj _ P) end)
            (get_returns_fresh_copy_of_cache
               [CallUpdate false true exampleFixedEnv] exampleOfflineEnv _ _)).
  - reflexivity.
  - reflexivity.
Defined.

(** X6.  With no cache yet, [get] fetches first.  When that fetch throws,
    [get] throws the same error; when the endpoint answers 304 there is
    still no cache, and reading its body throws a TypeError. *)
Theorem get_without_cache_can_fail env st :
  cache st = None →
  (∀ e, (update false false env st).2 = Throw e → (get env st).2 = Throw e) ∧
  (∀ cfg base r,
     getMany env = Some cfg → apiEndpoint cfg = CfgString base →
     (∀ req, remote env req = Replied r) →
     latency r < apiTimeout cfg → statusCode r = 304 →
     (get env st).2 = Throw TypeError).
Proof.
  intros Hnone. unfold get. rewrite Hnone. split.
  - intros e He. destruct (update false false env st) as [st1 r].
    cbn in He. by rewrite He.
  - intros cfg base r Hcfg Hbase Hremote Hlat Hstatus.
    unfold update, fetchAndStore. rewrite Hcfg, Hbase, Hremote.
    rewrite decide_False by lia. rewrite decide_True by done. cbn.
    by rewrite Hnone.
Qed.

Lemma get_without_cache_can_fail_witness :
  (get exampleNotModifiedEnv initialState).2 = Throw TypeError ∧
  (get exampleOfflineEnv initialState).2 = Throw RequestError.
Proof.
  split.
  - apply (proj2 (get_without_cache_can_fail exampleNotModifiedEnv initialState
                    eq_refl) exampleConfig "https://api.example.com"
                 {| latency := 120; statusCode := 304; headers := ∅;
                    body := JPrim PNull |}).
    + reflexivity.
    + reflexivity.
    + intros req. reflexivity.
    + simpl. lia.
    + reflexivity.
  - apply (proj1 (get_without_cache_can_fail exampleOfflineEnv initialState
                    eq_refl)). reflexivity.
Defined.

(** X7.  With no cache yet and an endpoint that answers in time with a
    status other than 304, [get] returns the content of the reply, leaves
    it in the cache, has sent one request and has emitted one event, with
    [force] and [isFromApi] both false. *)
Theorem get_without_cache_fetches env st cfg base r :
  cache st = None →
  getMany env = Some cfg →
  apiEndpoint cfg = CfgString base →
  (∀ req, remote env req = Replied r) →
  latency r < apiTimeout cfg →
  statusCode r ≠ 304 →
  ∃ copy c e,
    (get env st).2 = Ok copy ∧
    content copy = body r ∧
    cache (get env st).1 = Some c ∧
    content (cache_body c) = body r ∧
    ¬ aliases copy (cache_body c) ∧
    emitted (get env st).1 = emitted st ++ [e] ∧
    ev_force e = false ∧ ev_isFromApi e = false ∧
    length (sent (get env st).1) = S (length (sent st)).
Proof.
  intros Hnone Hcfg Hbase Hremote Hlat Hstatus.
  assert (∃ st1 b copy1,
            update false false env st = (st1, Ok ()) ∧
            cache st1 = Some {| etag := headers r !! "etag"; cache_body := b |} ∧
            content b = body r ∧
            (∀ a, a ∈ addrs b → (a < next st1)%nat) ∧
            emitted st1 = emitted st ++
              [{| ev_targetState := copy1; ev_force := false;
                  ev_isFromApi := false |}] ∧
            length (sent st1) = S (length (sent st)))
    as (st1 & b & copy1 & Hupdate & Hc & Hb & Hbelow & He & Hsent).
  { unfold update, fetchAndStore. rewrite Hcfg, Hbase, Hremote.
    rewrite decide_False by lia. rewrite decide_False by done.
    destruct (alloc_fresh (body r) (next st)) as (Hb & _ & Hin).
    destruct (cloneDeep_fresh (alloc (body r) (next st)).1
                (alloc (body r) (next st)).2) as (_ & Hle & _).
    destruct (alloc (body r) (next st)) as [b n1]. cbn [fst snd] in *.
    destruct (cloneDeep b n1) as [copy1 n2]. cbn [fst snd] in *.
    eexists _, b, copy1. repeat split; try done.
    - intros a Ha. cbn. apply Hin in Ha. lia.
    - cbn. rewrite length_app. cbn. lia. }
  rewrite (get_reads_cache env st st1 _) by (by rewrite ?Hnone).
  destruct (cloneDeep_fresh b (next st1)) as (Hcontent & _ & Hin).
  eexists _, _, _. cbn. repeat split; try done.
  - congruence.
  - intros (a & Ha1 & Ha2). apply Hin in Ha1. apply Hbelow in Ha2. lia.
Qed.

Lemma get_without_cache_fetches_witness :
  ∃ copy c e,
    (get exampleFixedEnv initialState).2 = Ok copy ∧
    content copy = exampleDocument ∧
    cache (get exampleFixedEnv initialState).1 = Some c ∧
    content (cache_body c) = exampleDocument ∧
    ¬ aliases copy (cache_body c) ∧
    emitted (get exampleFixedEnv initialState).1 = [] ++ [e] ∧
    ev_force e = false ∧ ev_isFromApi e = false ∧
    length (sent (get exampleFixedEnv initialState).1) = 1%nat.
Proof.
  apply (get_without_cache_fetches exampleFixedEnv initialState exampleConfig
           "https://api.example.com" exampleReply).
  - reflexivity.
  - reflexivity.
  - reflexivity.
  - intros req. reflexivity.
  - simpl. lia.
  - simpl. lia.
Defined.

(** *** More on the loop *)

Section poll_more.
Variable maxApiJitterDelay : Z.

(** X8.  While the poll interval cannot be read from the configuration,
    every pass sleeps 10 seconds and nothing else happens: no request is
    sent, the cache and the failure counter stay as they are. *)
Theorem poll_waits_ten_seconds_without_configuration skipFirstGet envs ps :
  Forall (λ pe, appUpdatePollInterval pe = None) envs →
  poll maxApiJitterDelay skipFirstGet envs ps
    = (replicate (length envs) (inject_Z 10000), ps).
Proof.
  intros Henvs. revert skipFirstGet.
  induction Henvs as [| pe envs Hpe _ IH]; intros skipFirstGet; [done |].
  cbn [poll]. unfold pollOnce. rewrite Hpe. by rewrite IH.
Qed.

(** X9.  Over consecutive failed fetches under one poll interval, counted
    from zero, the sleeps never shrink and never exceed the interval; from
    the first failure [n] with [interval ≤ 15000 * 2^n] on, the sleep is
    the interval. *)
Theorem poll_backoff_grows_up_to_interval fails ps interval :
  targetStateFetchErrors ps = 0%N →
  Forall (λ pe, appUpdatePollInterval pe = Some interval ∧ updateFails pe) fails →
  ∀ n m a b,
    (n ≤ m)%nat →
    (poll maxApiJitterDelay false fails ps).1 !! n = Some a →
    (poll maxApiJitterDelay false fails ps).1 !! m = Some b →
    (a <= b)%Q ∧ (b <= inject_Z interval)%Q ∧
    (interval ≤ 15000 * 2 ^ Z.of_nat n → a = inject_Z interval).
Proof.
  intros Hzero Hfails n m a b Hnm Ha Hb.
  assert (Forall (λ pe, is_Some (appUpdatePollInterval pe) ∧ updateFails pe) fails)
    as Hfails'.
  { eapply Forall_impl; [done |]. intros pe [-> ?]. by split. }
  destruct (poll_failures maxApiJitterDelay fails Hfails' ps) as [_ Hsleeps].
  pose proof (poll_length maxApiJitterDelay false fails ps) as Hlen.
  assert (∀ k s, (poll maxApiJitterDelay false fails ps).1 !! k = Some s →
                 s = inject_Z (Z.min interval (15000 * 2 ^ Z.of_nat k))) as Hat.
  { intros k s Hk.
    destruct (lookup_lt_is_Some_2 fails k) as [pe Hpe].
    { rewrite <- Hlen. by eapply lookup_lt_Some. }
    destruct (proj1 (Forall_forall _ _) Hfails pe) as [Hint _].
    { by eapply list_elem_of_lookup_2. }
    rewrite (Hsleeps k pe interval Hpe Hint) in Hk. rewrite Hzero in Hk.
    by injection Hk as <-. }
  rewrite (Hat n a Ha), (Hat m b Hb). repeat split.
  - rewrite <- Zle_Qle.
    assert (2 ^ Z.of_nat n ≤ 2 ^ Z.of_nat m) by (apply Z.pow_le_mono_r; lia).
    lia.
  - rewrite <- Zle_Qle. lia.
  - intros Hcap. f_equal. lia.
Qed.
End poll_more.

Lemma poll_waits_ten_seconds_without_configuration_witness :
  poll 60000 false [exampleUnconfiguredPass; exampleUnconfiguredPass]
       initialPollState
    = (replicate 2 (inject_Z 10000), initialPollState).
Proof.
  apply (poll_waits_ten_seconds_without_configuration 60000 false
           [exampleUnconfiguredPass; exampleUnconfiguredPass] initialPollState).
  repeat constructor.
Defined.

Lemma poll_backoff_grows_up_to_interval_witness :
  (inject_Z 30000 <= inject_Z 60000)%Q ∧
  (inject_Z 60000 <= inject_Z 60000)%Q ∧
  (60000 ≤ 15000 * 2 ^ Z.of_nat 1 → inject_Z 30000 = inject_Z 60000).
Proof.
  apply (poll_backoff_grows_up_to_interval 60000
           [exampleFailingPass; exampleFailingPass; exampleFailingPass]
           initialPollState 60000 eq_refl
           ltac:(repeat constructor; intros st; reflexivity)
           1%nat 2%nat (inject_Z 30000) (inject_Z 60000)).
  - lia.
  - reflexivity.
  - reflexivity.
Defined.

(** X10.  [startPoll] starts the loop on its first call only.  When
    [instantUpdates] is false or cannot be read, the first pass of that
    loop fetches nothing: it leaves the state as it is and sleeps the
    jittered interval, the binary64 result of
    [Math.random() * maxApiJitterDelay + interval], and the passes after
    it are those of [poll()]. *)
Theorem startPoll_skips_first_fetch_unless_instant
    maxApiJitterDelay setting pe envs ps interval :
  setting ≠ Some true →
  appUpdatePollInterval pe = Some interval →
  startedPoll maxApiJitterDelay setting false (pe :: envs) ps
    = (round64 (round64 (random pe * inject_Z maxApiJitterDelay)
                + inject_Z interval)
         :: (poll maxApiJitterDelay false envs ps).1,
       (poll maxApiJitterDelay false envs ps).2) ∧
  (startPoll setting false).2 = true ∧
  ∀ setting', startedPoll maxApiJitterDelay setting' true (pe :: envs) ps = ([], ps).
Proof.
  intros Hsetting Hinterval. repeat split.
  unfold startedPoll, startPoll. cbn [fst].
  assert (negb match setting with Some b => b | None => false end = true) as ->.
  { by destruct setting as [[] |]. }
  cbn [poll]. unfold pollOnce. rewrite Hinterval.
  by destruct (poll maxApiJitterDelay false envs ps).
Qed.

Lemma startPoll_skips_first_fetch_unless_instant_witness :
  startedPoll 60000 None false [exampleNearOnePass 60000; exampleGoodPass]
              initialPollState
    = (round64 (round64 (random (exampleNearOnePass 60000) * inject_Z 60000)
                + inject_Z 60000)
         :: (poll 60000 false [exampleGoodPass] initialPollState).1,
       (poll 60000 false [exampleGoodPass] initialPollState).2) ∧
  (startPoll None false).2 = true ∧
  ∀ setting', startedPoll 60000 setting' true
                [exampleNearOnePass 60000; exampleGoodPass]
                initialPollState = ([], initialPollState).
Proof.
  apply (startPoll_skips_first_fetch_unless_instant 60000 None
           (exampleNearOnePass 60000) [exampleGoodPass] initialPollState 60000).
  - discriminate.
  - reflexivity.
Defined.

(** The sleeps of a loop that [startPoll] starts without instant updates,
    when [Math.random()] returns [1 - 2^-52] and then a quarter. *)
Example startPoll_first_sleeps :
  (startedPoll 60000 None false [exampleNearOnePass 60000; exampleGoodPass]
               initialPollState).1
    = [Qred (120000 - pow2 (-36)); inject_Z 75000].
Proof. by vm_compute. Qed.

End TargetStateProofs.

(** * Properties of the proxyvisor *)

Module ProxyvisorProofs.
Import Proxyvisor.

(** *** Tarball pruning *)

Lemma pretty_N_go_ne_tar x s : s ≠ "tar" → pretty_N_go x s ≠ "tar".
Proof.
  revert s. induction (N.lt_wf_0 x) as [x _ IH]; intros s Hs.
  assert (x = 0 ∨ 0 < x)%N as [-> | Hpos] by lia.
  - by rewrite pretty_N_go_0.
  - rewrite pretty_N_go_step by done. apply IH.
    + by apply N.div_lt.
    + unfold pretty_N_char. by repeat case_match.
Qed.

Lemma pretty_N_ne_tar (x : N) : pretty x ≠ "tar".
Proof.
  unfold pretty, pretty_N. case_decide; [done |]. by apply pretty_N_go_ne_tar.
Qed.

(** No value has a property named "tar". *)
Lemma getProp_tar v : getProp v "tar" = Undefined.
Proof.
  destruct v as [| s | n |]; try reflexivity.
  unfold getProp, stringProp.
  assert (list_find (λ i, pretty (N.of_nat i) = "tar") (seq 0 (String.length s))
            = None) as ->; [| reflexivity].
  apply list_find_None, Forall_forall. intros i _. apply pretty_N_ne_tar.
Qed.

(** The last segment of a path is decided by its end. *)
Lemma splitDots_app_last ending segment :
  (∀ acc, ∃ segments, splitDots acc ending = segments ++ [segment]) →
  ∀ front acc,
    ∃ segments, splitDots acc (front +:+ ending) = segments ++ [segment].
Proof.
  intros Hending. induction front as [| c front IH]; intros acc.
  - apply Hending.
  - change (String c front +:+ ending) with (String c (front +:+ ending)).
    cbn [splitDots]. case_decide.
    + destruct (IH "") as [segments ->]. by exists (String.rev acc :: segments).
    + apply IH.
Qed.

Lemma stringToPath_tarFilename appId commit :
  ∃ segments, stringToPath (tarFilename appId commit) = segments ++ ["tar"].
Proof.
  unfold stringToPath, tarFilename.
  apply splitDots_app_last. intros acc. apply splitDots_app_last.
  intros acc'. apply splitDots_app_last.
  intros acc''. by exists [String.rev acc''].
Qed.

(** Read as a property path, the name of a tarball finds nothing in any
    file name. *)
Lemma property_tarFilename appId commit file :
  property (tarFilename appId commit) file = false.
Proof.
  unfold property, baseGet.
  destruct (stringToPath_tarFilename appId commit) as [segments ->].
  by rewrite foldl_snoc, getProp_tar.
Qed.

(** So with a commit [cleanupTars] unlinks every file of the directory, as
    it does without one. *)
Lemma cleanupTars_unlinks_every_file appId commit fs :
  (cleanupTars appId (Some commit) fs).1 = default [] (fs !! tarDirectory appId) ∧
  cleanupTars appId (Some commit) fs = cleanupTars appId None fs.
Proof.
  assert (∀ files, reject (property (tarFilename appId commit)) files = files)
    as Hreject.
  { induction files as [| file files IH]; [done |]. unfold reject in *. cbn.
    by rewrite property_tarFilename, IH. }
  unfold cleanupTars. by rewrite Hreject.
Qed.

(** C8, at a concrete directory.  The app is 7 and its current commit is
    "abc"; [fileToKeep] is "7-abc.tar".  No file name has a property at
    the path "7-abc" / "tar", so nothing is rejected: both tarballs are
    unlinked and the directory is left empty. *)
Theorem cleanupTars_unlinks_the_current_tarball :
  tarFilename 7 "abc" = "7-abc.tar" ∧
  stringToPath "7-abc.tar" = ["7-abc"; "tar"] ∧
  property "7-abc.tar" "7-abc.tar" = false ∧
  (cleanupTars 7 (Some "abc") exampleAssets).1 = ["7-abc.tar"; "7-old.tar"] ∧
  (cleanupTars 7 (Some "abc") exampleAssets).2 !! "/data/dependent-assets/7" = Some [].
Proof. vm_compute. done. Qed.

(** *** Dispatch of a step *)


(** C7 as claimed fails: [noop] is one of the five actions of a step, and
    [executeStepAction] raises the invalid-action error for it. *)
Lemma executeStepAction_rejects_noop :
  step_action Noop = "noop" ∧
  executeStepAction Noop = Throw (InvalidProxyvisorAction "noop").
Proof. split; reflexivity. Qed.

Lemma actionExecutors_cases action :
  (action ∈ validActions ∧ ∃ e, actionExecutors action = OwnExecutor e) ∨
  ((action ∉ validActions) ∧
     ((action ∈ objectPrototypeNames ∧
         actionExecutors action = InheritedMethod action) ∨
      (action = "__proto__" ∧ actionExecutors action = PrototypeObject) ∨
      ((action ∉ objectPrototypeNames) ∧ action ≠ "__proto__" ∧
         actionExecutors action = NoMember))).
Proof.
  unfold actionExecutors, validActions.
  destruct (decide (action = "updateDependentTargets")) as [-> | H1];
    [left; split; [rewrite !elem_of_cons; tauto | by eexists] |].
  destruct (decide (action = "sendDependentHooks")) as [-> | H2];
    [left; split; [rewrite !elem_of_cons; tauto | by eexists] |].
  destruct (decide (action = "removeDependentApp")) as [-> | H3];
    [left; split; [rewrite !elem_of_cons; tauto | by eexists] |].
  right. split; [rewrite !elem_of_cons, elem_of_nil; tauto |].
  destruct (decide (action ∈ objectPrototypeNames)) as [Hin | Hout]; [by left |].
  right. destruct (decide (action = "__proto__")) as [-> | H4]; [by left |].
  by right.
Qed.

(** C7, amended.  [executeStepAction] runs one of its own executors exactly
    for the three names in [validActions], and hands it the step.  For a
    name that [Object.prototype] does not define, it raises the
    invalid-action error exactly when the name is none of the three;
    [fetch] and [noop] are such names, and steps with these actions are
    rejected. *)
Theorem executeStepAction_dispatch step :
  ((∃ e, executeStepAction step = Ok (Runs e step)) ↔
     step_action step ∈ validActions) ∧
  (step_action step ∉ objectPrototypeNames ++ ["__proto__"] →
     (executeStepAction step
        = Throw (InvalidProxyvisorAction (step_action step)) ↔
      step_action step ∉ validActions)) ∧
  (∀ appId image,
     executeStepAction (Fetch appId image)
       = Throw (InvalidProxyvisorAction "fetch")) ∧
  executeStepAction Noop = Throw (InvalidProxyvisorAction "noop").
Proof.
  split; [| split; [| split; [intros appId image |]; reflexivity]].
  - unfold executeStepAction.
    destruct (actionExecutors_cases (step_action step))
      as [[Hin [e ->]] | [Hout [[Hin ->] | [[Heq ->] | (Hproto & Hne & ->)]]]];
      try case_decide; split; try done; try tauto; try (by eexists);
      by intros [? ?].
  - rewrite elem_of_app, list_elem_of_singleton. intros Hown.
    unfold executeStepAction.
    destruct (actionExecutors_cases (step_action step))
      as [[Hin [e ->]] | [Hout [[Hin ->] | [[Heq ->] | (Hproto & Hne & ->)]]]];
      try tauto; split; try done; tauto.
Qed.

Example executeStepAction_runs_removal :
  executeStepAction (RemoveDependentApp 7)
    = Ok (Runs RemoveDependentAppExecutor (RemoveDependentApp 7)).
Proof. reflexivity. Qed.

(** *** Removal of an app that has no target *)

Lemma setKey_appId k (app : DependentApp) o :
  appId app = k →
  Forall (λ kv, appId kv.2 = kv.1) o →
  Forall (λ kv, appId kv.2 = kv.1) (setKey k app o).
Proof.
  intros Hk. induction 1 as [| [k' v'] o Hhd Htl IH]; simpl.
  - by repeat constructor.
  - repeat case_decide; repeat constructor; try done.
Qed.

Lemma keyBy_appId apps :
  Forall (λ kv, appId kv.2 = kv.1) (keyBy apps).
Proof.
  unfold keyBy. generalize (@nil (N * DependentApp)) (Forall_nil_2 (λ kv : N * DependentApp, appId kv.2 = kv.1)).
  induction apps as [| app apps IH]; intros o Ho; simpl; [done |].
  apply IH. by apply setKey_appId.
Qed.

Lemma getKey_elem_of {A} k (o : list (N * A)) v :
  getKey k o = Some v → (k, v) ∈ o.
Proof.
  induction o as [| [k' v'] o IH]; simpl; [done |].
  case_decide; intros Hv; simplify_eq.
  - apply elem_of_cons. by left.
  - apply elem_of_cons. right. by apply IH.
Qed.

Lemma keyBy_lookup_appId apps k app :
  getKey k (keyBy apps) = Some app → appId app = k.
Proof.
  intros Hk%getKey_elem_of.
  by apply (proj1 (Forall_forall _ _) (keyBy_appId apps) (k, app)).
Qed.

(** C5.  For an appId under which the current apps hold an app and the
    target apps hold none, the steps for that app are the one step that
    removes it, whatever the devices, the images, the downloads and the
    steps in progress are. *)
Theorem nextSteps_removes_app_without_target
    acknowledgedState k currentApps targetApps app
    availableImages downloading currentDevices targetDevices stepsInProgress :
  getKey k (keyBy currentApps) = Some app →
  getKey k (keyBy targetApps) = None →
  nextStepsForDependentApp acknowledgedState k availableImages downloading
      (getKey k (keyBy currentApps)) (getKey k (keyBy targetApps))
      currentDevices targetDevices stepsInProgress
    = Ok [RemoveDependentApp k].
Proof.
  intros Hcurrent Htarget. rewrite Hcurrent, Htarget. simpl.
  by rewrite (keyBy_lookup_appId _ _ _ Hcurrent).
Qed.

Lemma nextSteps_removes_app_without_target_witness :
  nextStepsForDependentApp exampleAcknowledged 7 [] [11%N]
      (getKey 7%N (keyBy [exampleApp])) (getKey 7%N (keyBy []))
      [exampleDevice] [exampleDeviceTarget] [Noop]
    = Ok [RemoveDependentApp 7].
Proof.
  apply (nextSteps_removes_app_without_target exampleAcknowledged 7
           [exampleApp] [] exampleApp).
  - reflexivity.
  - reflexivity.
Defined.

(** *** The planner on the example gateway *)

(** The image of the target is neither present nor being downloaded: one
    fetch step; once it is being downloaded: one noop. *)
Example getRequiredSteps_fetches_missing_image :
  getRequiredSteps ∅ [] [] exampleCurrent exampleTarget []
    = Ok [Fetch 7 exampleImage] ∧
  getRequiredSteps ∅ [] [11%N] exampleCurrent exampleTarget [] = Ok [Noop].
Proof. split; vm_compute; reflexivity. Qed.

(** A step of the parent app in progress defers everything. *)
Example getRequiredSteps_waits_for_parent :
  getRequiredSteps ∅ [exampleImage] [] exampleCurrent exampleTarget
      [OtherStep "start" (Some (AppIdNumber 1))]
    = Ok [Noop].
Proof. vm_compute. reflexivity. Qed.

(** A target device that the current rows do not know yet: the targets are
    updated. *)
Example getRequiredSteps_updates_targets :
  getRequiredSteps ∅ [exampleImage] []
      (Some {| dep_apps := Some [exampleApp]; dep_devices := Some [] |})
      exampleTarget []
    = Ok [UpdateDependentTargets [exampleDeviceTarget] exampleApp 7].
Proof. vm_compute. reflexivity. Qed.

(** Applying a desired state with one app replaces the rows of the
    target-app table by that app. *)
Example setTargetInTransaction_replaces_apps :
  dependentAppTarget
      (setTargetInTransaction (λ image, image) exampleAppsOnly exampleDatabase).1
    = {[ 8%N := normaliseDependentAppForDB (λ image, image) 8 exampleAppSpec ]}.
Proof. vm_compute. reflexivity. Qed.

(** *** The hook step *)

Lemma pushHookDevices_spec acknowledgedState appId currentDevices :
  Forall (λ d, is_Some (dev_apps d !! appId)) currentDevices →
  ∀ devices,
    ∃ pushed,
      pushHookDevices acknowledgedState appId currentDevices devices
        = Ok (devices ++ pushed) ∧
      ∀ u, u ∈ hook_uuid <$> pushed ↔
           ∃ d, d ∈ currentDevices ∧ uuid d = u ∧
                qualifiesForHook acknowledgedState appId d.
Proof.
  induction 1 as [| d rest [a Ha] _ IH]; intros devices.
  - exists []. split; [by rewrite app_nil_r |].
    intros u. split; [by intros ?%elem_of_nil |].
    by intros (d & ?%elem_of_nil & _).
  - cbn [pushHookDevices]. destruct (markedForDeletion d) eqn:Hmarked.
    + destruct (IH (devices ++ [{| hook_uuid := uuid d; hook_target := None;
                                   hook_markedForDeletion := true |}]))
        as (pushed & -> & Hpushed).
      eexists (_ :: pushed). split; [by rewrite <- app_assoc |].
      intros u. rewrite fmap_cons, elem_of_cons, Hpushed. cbn [hook_uuid].
      split.
      * intros [-> | (d' & Hd' & Hu & Hq)].
        -- exists d. split; [apply elem_of_cons; by left |]. split; [done |].
           by left.
        -- exists d'. split; [apply elem_of_cons; by right | done].
      * intros (d' & [-> | Hd']%elem_of_cons & Hu & Hq); [by left |].
        right. by exists d'.
    + rewrite Ha. cbn zeta.
      destruct (bool_decide (targetCommit a ≠ None)
                && bool_decide (targetStateOf appId a ≠ currentStateOf appId a)
                && bool_decide (acknowledgedState !! uuid d
                                  ≠ Some (Some (targetStateOf appId a))))
        eqn:Hcond.
      * apply andb_prop in Hcond as [[Hc Hs]%andb_prop Hack].
        apply bool_decide_eq_true in Hc, Hs, Hack.
        destruct (IH (devices ++ [{| hook_uuid := uuid d;
                                     hook_target := Some (targetStateOf appId a);
                                     hook_markedForDeletion := false |}]))
          as (pushed & -> & Hpushed).
        eexists (_ :: pushed). split; [by rewrite <- app_assoc |].
        intros u. rewrite fmap_cons, elem_of_cons, Hpushed. cbn [hook_uuid].
        split.
        -- intros [-> | (d' & Hd' & Hu & Hq)].
           ++ exists d. split; [apply elem_of_cons; by left |]. split; [done |].
              right. by exists a.
           ++ exists d'. split; [apply elem_of_cons; by right | done].
        -- intros (d' & [-> | Hd']%elem_of_cons & Hu & Hq); [by left |].
           right. by exists d'.
      * destruct (IH devices) as (pushed & -> & Hpushed).
        exists pushed. split; [done |].
        intros u. rewrite Hpushed. split.
        -- intros (d' & Hd' & Hu & Hq).
           exists d'. split; [apply elem_of_cons; by right | done].
        -- intros (d' & [-> | Hd']%elem_of_cons & Hu & Hq);
             [| by exists d'].
           exfalso. destruct Hq as [Hq | (a' & Ha' & Hc & Hs & Hack)];
             [congruence |].
           rewrite Ha in Ha'. injection Ha' as <-.
           apply andb_false_iff in Hcond as [Hcond | Hcond];
             [apply andb_false_iff in Hcond as [Hcond | Hcond] |];
             apply bool_decide_eq_false in Hcond; contradiction.
Qed.

Lemma NoDup_fmap_eq {A B} (f : A → B) (l : list A) x y :
  NoDup (f <$> l) → x ∈ l → y ∈ l → f x = f y → x = y.
Proof.
  induction l as [| z l IH]; [by intros _ ?%elem_of_nil |].
  rewrite fmap_cons, NoDup_cons.
  intros [Hz Hl] [-> | Hx]%elem_of_cons [-> | Hy]%elem_of_cons Hf; try done.
  - exfalso. apply Hz. rewrite Hf. by apply list_elem_of_fmap_2.
  - exfalso. apply Hz. rewrite <- Hf. by apply list_elem_of_fmap_2.
  - by apply IH.
Qed.

(** [getRequiredSteps] hands [_getHookStep] only devices that have an entry
    for the app. *)
Lemma devicesForApp_entries appId current currentDevices :
  devicesForApp dev_apps appId current = Ok currentDevices →
  Forall (λ d, is_Some (dev_apps d !! appId)) currentDevices.
Proof.
  destruct current as [dep |]; [| done]. cbn. intros [= <-].
  apply Forall_forall. intros d Hd.
  apply list_elem_of_In, filter_In in Hd as [_ Hd].
  by apply bool_decide_eq_true in Hd.
Qed.

(** C6 as claimed fails: the device "d2" is not marked for deletion and its
    target state differs from its current state and from the
    acknowledged one (there is none), yet the hook step has no entry for
    it, because its target has no commit. *)
Lemma getHookStep_skips_target_without_commit :
  markedForDeletion exampleUncommittedDevice = false ∧
  dev_apps exampleUncommittedDevice !! 7%N = Some exampleUncommittedApp ∧
  targetStateOf 7 exampleUncommittedApp ≠ currentStateOf 7 exampleUncommittedApp ∧
  (∅ : Acknowledged) !! uuid exampleUncommittedDevice
    ≠ Some (Some (targetStateOf 7 exampleUncommittedApp)) ∧
  _getHookStep ∅ [exampleUncommittedDevice] 7 = Ok (SendDependentHooks [] 7).
Proof. repeat split; done. Qed.

(** C6, amended.  When every current device has an entry for the app,
    [_getHookStep] returns a sendDependentHooks step; a uuid has an entry
    in it exactly when a current device with that uuid is marked for
    deletion, or has a target commit and a target state that differs from
    its current state and from the acknowledged one.  So a device that is
    not marked for deletion and whose target state is the acknowledged one
    has no entry. *)
Theorem getHookStep_entries acknowledgedState currentDevices appId :
  Forall (λ d, is_Some (dev_apps d !! appId)) currentDevices →
  ∃ devices,
    _getHookStep acknowledgedState currentDevices appId
      = Ok (SendDependentHooks devices appId) ∧
    (∀ u, u ∈ hook_uuid <$> devices ↔
          ∃ d, d ∈ currentDevices ∧ uuid d = u ∧
               qualifiesForHook acknowledgedState appId d) ∧
    (∀ d a,
        NoDup (uuid <$> currentDevices) →
        d ∈ currentDevices →
        markedForDeletion d = false →
        dev_apps d !! appId = Some a →
        acknowledgedState !! uuid d = Some (Some (targetStateOf appId a)) →
        uuid d ∉ hook_uuid <$> devices).
Proof.
  intros Hentries. unfold _getHookStep.
  destruct (pushHookDevices_spec acknowledgedState appId currentDevices
              Hentries []) as (pushed & -> & Hpushed).
  exists pushed. split; [done |]. split; [done |].
  intros d a Hnodup Hd Hmarked Ha Hack (d' & Hd' & Hu & Hq)%Hpushed.
  assert (d' = d) as -> by (by eapply NoDup_fmap_eq).
  destruct Hq as [Hq | (a' & Ha' & _ & _ & Hnack)]; [congruence |].
  rewrite Ha in Ha'. by injection Ha' as <-.
Qed.

Lemma getHookStep_entries_witness :
  ∃ devices,
    _getHookStep exampleAcknowledged [exampleDevice; exampleUncommittedDevice] 7
      = Ok (SendDependentHooks devices 7) ∧
    (∀ u, u ∈ hook_uuid <$> devices ↔
          ∃ d, d ∈ [exampleDevice; exampleUncommittedDevice] ∧ uuid d = u ∧
               qualifiesForHook exampleAcknowledged 7 d) ∧
    (∀ d a,
        NoDup (uuid <$> [exampleDevice; exampleUncommittedDevice]) →
        d ∈ [exampleDevice; exampleUncommittedDevice] →
        markedForDeletion d = false →
        dev_apps d !! 7%N = Some a →
        exampleAcknowledged !! uuid d = Some (Some (targetStateOf 7 a)) →
        uuid d ∉ hook_uuid <$> devices).
Proof.
  apply (getHookStep_entries exampleAcknowledged
           [exampleDevice; exampleUncommittedDevice] 7).
  repeat constructor; by eexists.
Defined.

(** In the settled state of an app (no step of its parent in progress, its
    image present, current app equal to target app, device targets equal)
    the steps for it are the hook step, or nothing when that has no
    entry. *)
Lemma nextSteps_settled acknowledgedState appId availableImages downloading
    app currentDevices targetDevices stepsInProgress devices :
  existsb (λ step, bool_decide (step_appId step = Some (AppIdNumber (parentApp app))))
          stepsInProgress = false →
  _imageAvailable (image app) availableImages = true →
  _compareDevices currentDevices targetDevices appId = Ok false →
  _getHookStep acknowledgedState currentDevices appId
    = Ok (SendDependentHooks devices appId) →
  nextStepsForDependentApp acknowledgedState appId availableImages downloading
      (Some app) (Some app) currentDevices targetDevices stepsInProgress
    = Ok (match devices with
          | [] => []
          | _ => [SendDependentHooks devices appId]
          end).
Proof.
  intros Hparent Himage Hdevices Hhook. unfold nextStepsForDependentApp.
  rewrite Hparent, Himage, andb_false_r, Hdevices. cbn.
  rewrite bool_decide_eq_true_2 by done. cbn. rewrite Hhook. cbn.
  by destruct devices.
Qed.

(** *** What the planner reads besides its arguments *)

Lemma pushHookDevices_agree ack1 ack2 appId currentDevices :
  (∀ d, d ∈ currentDevices → ack1 !! uuid d = ack2 !! uuid d) →
  ∀ devices,
    pushHookDevices ack1 appId currentDevices devices
      = pushHookDevices ack2 appId currentDevices devices.
Proof.
  induction currentDevices as [| d rest IH]; intros Hagree devices; [done |].
  cbn [pushHookDevices].
  rewrite (Hagree d) by (apply elem_of_cons; by left).
  assert (∀ devices, pushHookDevices ack1 appId rest devices
                       = pushHookDevices ack2 appId rest devices) as Hrest.
  { apply IH. intros d' Hd'. apply Hagree, elem_of_cons. by right. }
  destruct (markedForDeletion d); [apply Hrest |].
  destruct (dev_apps d !! appId) as [a |]; [| done].
  cbn zeta. by rewrite !Hrest.
Qed.

Lemma nextSteps_agree ack1 ack2 appId availableImages downloading current target
    currentDevices targetDevices stepsInProgress :
  (∀ d, d ∈ currentDevices → ack1 !! uuid d = ack2 !! uuid d) →
  nextStepsForDependentApp ack1 appId availableImages downloading current target
      currentDevices targetDevices stepsInProgress
    = nextStepsForDependentApp ack2 appId availableImages downloading current
        target currentDevices targetDevices stepsInProgress.
Proof.
  intros Hagree. unfold nextStepsForDependentApp, _getHookStep.
  by rewrite (pushHookDevices_agree ack1 ack2 appId currentDevices Hagree).
Qed.

Lemma mapM_agree {A B} (f g : A → result B) (l : list A) :
  (∀ x, x ∈ l → f x = g x) → mapM f l = mapM g l.
Proof.
  induction l as [| x l IH]; intros Hfg; [done |]. cbn.
  rewrite (Hfg x) by (apply elem_of_cons; by left).
  rewrite IH; [done |]. intros y Hy. apply Hfg, elem_of_cons. by right.
Qed.

(** C3 as claimed fails: the five arguments are the same in both calls and
    only the acknowledged state differs; the first call plans a hook for
    "d1", the second plans nothing. *)
Lemma getRequiredSteps_reads_acknowledged_state :
  getRequiredSteps ∅ [exampleImage] [] exampleCurrent exampleTarget []
    = Ok [SendDependentHooks
            [{| hook_uuid := "d1";
                hook_target := Some (targetStateOf 7 exampleDeviceApp);
                hook_markedForDeletion := false |}] 7] ∧
  getRequiredSteps exampleAcknowledged [exampleImage] [] exampleCurrent
      exampleTarget []
    = Ok [].
Proof. split; vm_compute; reflexivity. Qed.

(** C3, amended.  Besides its five arguments [getRequiredSteps] reads the
    acknowledged states, and of those only the entries of the current
    dependent devices: two calls with equal arguments and acknowledged
    states that agree on the uuids of these devices return the same
    result, steps in the same order. *)
Theorem getRequiredSteps_determined_by_arguments_and_acknowledged
    ack1 ack2 availableImages downloading current target stepsInProgress :
  (∀ d, d ∈ default [] (current ≫= dep_devices) →
        ack1 !! uuid d = ack2 !! uuid d) →
  getRequiredSteps ack1 availableImages downloading current target stepsInProgress
    = getRequiredSteps ack2 availableImages downloading current target
        stepsInProgress.
Proof.
  intros Hagree. unfold getRequiredSteps. f_equal.
  apply mapM_agree. intros appId _.
  destruct current as [dep |]; [| done]. cbn.
  destruct (devicesForApp tgt_apps appId target) as [targetDevices |]; [| done].
  cbn. apply nextSteps_agree. intros d Hd. apply Hagree. cbn.
  apply list_elem_of_In, filter_In in Hd as [Hd _]. by apply list_elem_of_In.
Qed.

Lemma getRequiredSteps_determined_by_arguments_and_acknowledged_witness :
  getRequiredSteps exampleAcknowledged [exampleImage] [] exampleCurrent
      exampleTarget []
    = getRequiredSteps (<["d9" := None]> exampleAcknowledged) [exampleImage] []
        exampleCurrent exampleTarget [].
Proof.
  apply (getRequiredSteps_determined_by_arguments_and_acknowledged
           exampleAcknowledged (<["d9" := None]> exampleAcknowledged)).
  intros d Hd. cbn in Hd. apply list_elem_of_singleton in Hd as ->.
  reflexivity.
Defined.

(** *** Tables that [setTargetInTransaction] leaves alone *)

(** C9.  When the desired state has no [apps], the target-app table after
    [setTargetInTransaction] is the table before, whether the transaction
    resolves or throws; when it has no [devices], the same holds for the
    target-device table. *)
Theorem setTargetInTransaction_frame normalise dependent db :
  (dependent ≫= des_apps = None →
     dependentAppTarget (setTargetInTransaction normalise dependent db).1
       = dependentAppTarget db) ∧
  (dependent ≫= des_devices = None →
     dependentDeviceTarget (setTargetInTransaction normalise dependent db).1
       = dependentDeviceTarget db).
Proof.
  unfold setTargetInTransaction, setTargetDevices, setTargetApps. split.
  - intros ->. destruct (dependent ≫= des_devices) as [devices |]; [| done].
    by destruct (mapM _ devices).
  - intros ->. by destruct (dependent ≫= des_apps).
Qed.

Lemma setTargetInTransaction_frame_witness :
  dependentAppTarget
      (setTargetInTransaction (λ image, image) exampleDevicesOnly exampleDatabase).1
    = {[ 7%N := exampleApp ]} ∧
  dependentDeviceTarget
      (setTargetInTransaction (λ image, image) exampleAppsOnly exampleDatabase).1
    = {[ "d1" := exampleDeviceTarget ]}.
Proof.
  split.
  - apply (setTargetInTransaction_frame (λ image, image) exampleDevicesOnly
             exampleDatabase). reflexivity.
  - apply (setTargetInTransaction_frame (λ image, image) exampleAppsOnly
             exampleDatabase). reflexivity.
Defined.

(** *** Acknowledgement of a delivered target *)



(** *** Comparison of devices *)

Lemma uniq_step_elem_of {A} `{EqDecision A} (l acc : list A) x :
  x ∈ foldl (λ acc x, if decide (x ∈ acc) then acc else acc ++ [x]) acc l
  ↔ x ∈ acc ∨ x ∈ l.
Proof.
  revert acc. induction l as [| y l IH]; intros acc; cbn.
  - rewrite elem_of_nil. tauto.
  - rewrite IH, elem_of_cons. case_decide.
    + split; [tauto |]. intros [? | [-> | ?]]; tauto.
    + rewrite elem_of_app, list_elem_of_singleton. tauto.
Qed.

Lemma uniq_elem_of {A} `{EqDecision A} (l : list A) x : x ∈ uniq l ↔ x ∈ l.
Proof. unfold uniq. rewrite uniq_step_elem_of, elem_of_nil. tauto. Qed.

Lemma elem_of_nil_iff {A} (l : list A) : l = [] ↔ ∀ x, x ∉ l.
Proof.
  split; [intros -> x; apply not_elem_of_nil | apply elem_of_nil_inv].
Qed.

(** [_.xorWith] is empty exactly when the two arrays hold the same
    elements. *)
Lemma xorWith_nil {A} `{EqDecision A} (a b : list A) :
  xorWith a b = [] ↔ ∀ x, x ∈ a ↔ x ∈ b.
Proof.
  rewrite elem_of_nil_iff. unfold xorWith, differenceWith.
  setoid_rewrite uniq_elem_of. setoid_rewrite elem_of_app.
  setoid_rewrite list_elem_of_filter. split.
  - intros Hnone x. specialize (Hnone x).
    destruct (decide (x ∈ a)), (decide (x ∈ b)); tauto.
  - intros Hsame x. specialize (Hsame x). tauto.
Qed.

Lemma mapM_Ok_elem_of {A B} (f : A → result B) (l : list A) (k : list B) :
  mapM f l = Ok k →
  ∀ y, y ∈ k ↔ ∃ x, x ∈ l ∧ f x = Ok y.
Proof.
  revert k. induction l as [| x l IH]; intros k; cbn.
  - intros [= <-] y. split; [by intros ?%elem_of_nil |].
    by intros (x & ?%elem_of_nil & _).
  - destruct (f x) as [y0 |] eqn:Hx; [| done]. cbn.
    destruct (mapM f l) as [k' |]; [| done]. cbn. intros [= <-] y.
    rewrite elem_of_cons, (IH k' eq_refl). split.
    + intros [-> | (x' & Hx' & Hfx')].
      * exists x. split; [apply elem_of_cons; by left | done].
      * exists x'. split; [apply elem_of_cons; by right | done].
    + intros (x' & [-> | Hx']%elem_of_cons & Hfx').
      * left. congruence.
      * right. by exists x'.
Qed.

Lemma mapM_is_Ok {A B} (f : A → result B) (l : list A) :
  (∀ x, x ∈ l → ∃ y, f x = Ok y) → ∃ k, mapM f l = Ok k.
Proof.
  induction l as [| x l IH]; intros Hall; cbn; [by eexists |].
  destruct (Hall x) as [y ->]; [apply elem_of_cons; by left |].
  destruct IH as [k ->]; [| by eexists].
  intros x' Hx'. apply Hall, elem_of_cons. by right.
Qed.

Lemma mapM_Throw {A B} (f : A → result B) (l : list A) e :
  (∀ x e', x ∈ l → f x = Throw e' → e' = e) →
  (∃ x, x ∈ l ∧ f x = Throw e) →
  mapM f l = Throw e.
Proof.
  induction l as [| x l IH]; intros Honly (x0 & Hx0 & Hf0).
  - by apply elem_of_nil in Hx0.
  - cbn. destruct (f x) as [y |] eqn:Hx.
    + cbn. rewrite IH; [done | |].
      * intros x' e' Hx'. apply Honly, elem_of_cons. by right.
      * apply elem_of_cons in Hx0 as [-> | Hx0]; [congruence |]. by exists x0.
    + cbn. f_equal. eapply Honly; [| done]. apply elem_of_cons. by left.
Qed.

(** X11.  [_compareDevices] compares two sets.  When every current device
    that is not marked for deletion has an entry for the app, the result
    is false exactly when the target devices are, as a set, the current
    devices that are not marked for deletion, each reshaped as its target;
    order and repetition do not matter. *)
Theorem compareDevices_compares_sets currentDevices targetDevices appId :
  (∀ d, d ∈ currentDevices → markedForDeletion d = false →
        is_Some (dev_apps d !! appId)) →
  ∃ differ,
    _compareDevices currentDevices targetDevices appId = Ok differ ∧
    (differ = false ↔
       ∀ t, t ∈ targetDevices ↔
            ∃ d, d ∈ currentDevices ∧ deviceAsTarget appId d = Ok (Some t)).
Proof.
  intros Hentries. unfold _compareDevices.
  destruct (mapM_is_Ok (deviceAsTarget appId) currentDevices) as [targets Hmap].
  { intros d Hd. unfold deviceAsTarget.
    destruct (markedForDeletion d) eqn:Hmarked; [by eexists |].
    destruct (Hentries d Hd Hmarked) as [a ->]. by eexists. }
  rewrite Hmap. cbn. eexists. split; [done |].
  rewrite negb_false_iff, bool_decide_eq_true, xorWith_nil.
  pose proof (mapM_Ok_elem_of _ _ _ Hmap) as Hin.
  assert (∀ t, t ∈ omap id targets ↔
               ∃ d, d ∈ currentDevices ∧ deviceAsTarget appId d = Ok (Some t))
    as Hreshaped.
  { intros t. rewrite list_elem_of_omap. setoid_rewrite Hin. split.
    - intros (o & (d & Hd & Hfd) & Ho). cbn in Ho. subst o. by exists d.
    - intros (d & Hd & Hfd). exists (Some t). split; [by exists d | done]. }
  split.
  - intros Hsame t. by rewrite <- Hsame, Hreshaped.
  - intros Hsame t. by rewrite Hsame, Hreshaped.
Qed.

Lemma compareDevices_compares_sets_witness :
  ∃ differ,
    _compareDevices [exampleDevice] [exampleDeviceTarget; exampleDeviceTarget] 7
      = Ok differ ∧
    (differ = false ↔
       ∀ t, t ∈ [exampleDeviceTarget; exampleDeviceTarget] ↔
            ∃ d, d ∈ [exampleDevice] ∧ deviceAsTarget 7 d = Ok (Some t)).
Proof.
  apply (compareDevices_compares_sets [exampleDevice]
           [exampleDeviceTarget; exampleDeviceTarget] 7).
  intros d ->%list_elem_of_singleton _. by eexists.
Defined.

(** X12.  A current device that is not marked for deletion and has no
    entry for the app makes both [_compareDevices] and [_getHookStep] throw
    a TypeError, wherever it stands in the list. *)
Theorem device_without_entry_throws acknowledgedState currentDevices d
    targetDevices appId :
  d ∈ currentDevices →
  markedForDeletion d = false →
  dev_apps d !! appId = None →
  _compareDevices currentDevices targetDevices appId = Throw TypeError ∧
  _getHookStep acknowledgedState currentDevices appId = Throw TypeError.
Proof.
  intros Hd Hmarked Hnone. split.
  - unfold _compareDevices. rewrite (mapM_Throw _ _ TypeError); [done | |].
    + intros x e' _. unfold deviceAsTarget.
      destruct (markedForDeletion x); [done |].
      destruct (dev_apps x !! appId); [done |]. by intros [= <-].
    + exists d. split; [done |].
      unfold deviceAsTarget. by rewrite Hmarked, Hnone.
  - unfold _getHookStep.
    assert (∀ devices, pushHookDevices acknowledgedState appId
                         currentDevices devices = Throw TypeError)
      as ->; [| done].
    induction currentDevices as [| d' rest IH]; intros devices.
    + by apply elem_of_nil in Hd.
    + cbn. apply elem_of_cons in Hd as [<- | Hd].
      * by rewrite Hmarked, Hnone.
      * destruct (markedForDeletion d'); [by apply IH |].
        destruct (dev_apps d' !! appId); [| done].
        destruct (_ && _); by apply IH.
Qed.

Lemma device_without_entry_throws_witness :
  _compareDevices [exampleUncommittedDevice; exampleDevice] [] 8
    = Throw TypeError ∧
  _getHookStep ∅ [exampleUncommittedDevice; exampleDevice] 8 = Throw TypeError.
Proof.
  apply (device_without_entry_throws ∅
           [exampleUncommittedDevice; exampleDevice] exampleDevice [] 8).
  - apply elem_of_cons. right. apply elem_of_cons. by left.
  - reflexivity.
  - reflexivity.
Defined.

(** *** Order of the rules for one app *)

(** X13.  A step in progress whose appId is the number of the target's
    parent app defers the app: the only step is a noop, whatever the
    images, the devices and the current app are, also when reading the
    devices would have thrown. *)
Theorem nextSteps_waits_for_parent acknowledgedState appId availableImages
    downloading current target currentDevices targetDevices stepsInProgress step :
  step ∈ stepsInProgress →
  step_appId step = Some (AppIdNumber (parentApp target)) →
  nextStepsForDependentApp acknowledgedState appId availableImages downloading
      current (Some target) currentDevices targetDevices stepsInProgress
    = Ok [Noop].
Proof.
  intros Hstep Hid. unfold nextStepsForDependentApp.
  assert (existsb (λ step, bool_decide
                     (step_appId step = Some (AppIdNumber (parentApp target))))
                  stepsInProgress = true) as ->; [| done].
  apply existsb_exists. exists step.
  split; [by apply list_elem_of_In | by apply bool_decide_eq_true].
Qed.

Lemma nextSteps_waits_for_parent_witness :
  nextStepsForDependentApp ∅ 8 [] [] None (Some exampleApp) [exampleDevice] []
      [Noop; OtherStep "kill" (Some (AppIdNumber 1))]
    = Ok [Noop].
Proof.
  apply (nextSteps_waits_for_parent ∅ 8 [] [] None exampleApp [exampleDevice] []
           [Noop; OtherStep "kill" (Some (AppIdNumber 1))]
           (OtherStep "kill" (Some (AppIdNumber 1)))).
  - apply elem_of_cons. right. apply elem_of_cons. by left.
  - reflexivity.
Defined.

Lemma existsb_false_iff {A} (p : A → bool) (l : list A) :
  existsb p l = false ↔ ∀ x, x ∈ l → p x = false.
Proof.
  rewrite <- not_true_iff_false, existsb_exists. split.
  - intros Hnone x Hx. apply not_true_iff_false. intros Hp.
    apply Hnone. exists x. split; [by apply list_elem_of_In | done].
  - intros Hall (x & Hx%list_elem_of_In & Hp). by rewrite (Hall x Hx) in Hp.
Qed.

(** X14.  When no step of the parent is in progress and the target has a
    commit and an image that is not among the available images, the only
    step is a noop if the target's imageId is being downloaded, and else a
    fetch of that image for this app; the devices are not looked at. *)
Theorem nextSteps_fetches_missing_image acknowledgedState appId availableImages
    downloading current target currentDevices targetDevices stepsInProgress name :
  (∀ step, step ∈ stepsInProgress →
           step_appId step ≠ Some (AppIdNumber (parentApp target))) →
  commit target ≠ None →
  image target = Some name →
  (∀ img, img ∈ availableImages → img_name img ≠ Some name) →
  nextStepsForDependentApp acknowledgedState appId availableImages downloading
      current (Some target) currentDevices targetDevices stepsInProgress
    = Ok [if bool_decide (imageId target ∈ Some <$> downloading) then Noop
          else Fetch appId {| img_name := Some name;
                              img_imageId := imageId target;
                              img_appId := Proxyvisor.appId target;
                              img_dependent := true |}].
Proof.
  intros Hparent Hcommit Himage Hmissing. unfold nextStepsForDependentApp.
  assert (existsb (λ step, bool_decide
                     (step_appId step = Some (AppIdNumber (parentApp target))))
                  stepsInProgress = false) as ->.
  { apply existsb_false_iff. intros step Hstep.
    apply bool_decide_eq_false. by apply Hparent. }
  assert (_imageAvailable (image target) availableImages = false) as ->.
  { apply existsb_false_iff. intros img Himg.
    apply bool_decide_eq_false. rewrite Himage. by apply Hmissing. }
  rewrite !bool_decide_eq_true_2 by (done || by rewrite Himage). cbn.
  unfold imageForDependentApp. rewrite Himage. by case_bool_decide.
Qed.

Lemma nextSteps_fetches_missing_image_witness :
  nextStepsForDependentApp ∅ 7 [] [11%N] None (Some exampleApp)
      [exampleDevice] [] [Noop]
    = Ok [if bool_decide (imageId exampleApp ∈ Some <$> [11%N]) then Noop
          else Fetch 7 {| img_name := Some "registry/sensors:abc";
                          img_imageId := imageId exampleApp;
                          img_appId := Proxyvisor.appId exampleApp;
                          img_dependent := true |}].
Proof.
  apply (nextSteps_fetches_missing_image ∅ 7 [] [11%N] None exampleApp
           [exampleDevice] [] [Noop] "registry/sensors:abc").
  - intros step ->%list_elem_of_singleton. discriminate.
  - discriminate.
  - reflexivity.
  - intros img Himg. by apply elem_of_nil in Himg.
Defined.

(** X15.  For one app the planner gives nothing or exactly one step, of
    one of five shapes: a noop or a fetch for this app (with a target app
    only); the removal of the current app (without a target app only); an
    update of targets, which carries the target devices and the target app
    it was called with; a hook step, which is never empty and is given
    only when the current app equals the target app. *)
Theorem nextSteps_shape acknowledgedState appId availableImages downloading
    current target currentDevices targetDevices stepsInProgress steps :
  nextStepsForDependentApp acknowledgedState appId availableImages downloading
      current target currentDevices targetDevices stepsInProgress = Ok steps →
  (steps = [] ∧ current = target ∧ target ≠ None) ∨
  (steps = [Noop] ∧ target ≠ None) ∨
  (∃ t, steps = [Fetch appId (imageForDependentApp t)] ∧ target = Some t) ∨
  (∃ c, steps = [RemoveDependentApp (Proxyvisor.appId c)] ∧
        current = Some c ∧ target = None) ∨
  (∃ t, steps = [UpdateDependentTargets targetDevices t appId] ∧
        target = Some t) ∨
  (∃ h hs, steps = [SendDependentHooks (h :: hs) appId] ∧
           current = target ∧ target ≠ None).
Proof.
  unfold nextStepsForDependentApp, _getHookStep.
  destruct target as [t |].
  - destruct (existsb _ stepsInProgress).
    { intros [= <-]. right. by left. }
    destruct (_ && _ && _).
    { case_bool_decide; intros [= <-].
      - right. by left.
      - do 2 right. left. by exists t. }
    destruct (_compareDevices currentDevices targetDevices appId)
      as [differ |]; [| done]. cbn.
    destruct (negb (bool_decide (current = Some t)) || differ) eqn:Hsame.
    { intros [= <-]. do 4 right. left. by exists t. }
    apply orb_false_iff in Hsame as [Hsame%negb_false_iff%bool_decide_eq_true _].
    destruct (pushHookDevices acknowledgedState appId currentDevices [])
      as [[| h hs] |]; cbn; [| | done].
    + intros [= <-]. by left.
    + intros [= <-]. do 5 right. by exists h, hs.
  - destruct current as [c |]; [| done]. intros [= <-].
    do 3 right. left. by exists c.
Qed.

Lemma nextSteps_shape_witness :
  ([UpdateDependentTargets [exampleDeviceTarget] exampleApp 7] = []
     ∧ None = Some exampleApp ∧ Some exampleApp ≠ None) ∨
  ([UpdateDependentTargets [exampleDeviceTarget] exampleApp 7] = [Noop]
     ∧ Some exampleApp ≠ None) ∨
  (∃ t, [UpdateDependentTargets [exampleDeviceTarget] exampleApp 7]
          = [Fetch 7 (imageForDependentApp t)] ∧ Some exampleApp = Some t) ∨
  (∃ c, [UpdateDependentTargets [exampleDeviceTarget] exampleApp 7]
          = [RemoveDependentApp (Proxyvisor.appId c)] ∧
        None = Some c ∧ Some exampleApp = None) ∨
  (∃ t, [UpdateDependentTargets [exampleDeviceTarget] exampleApp 7]
          = [UpdateDependentTargets [exampleDeviceTarget] t 7] ∧
        Some exampleApp = Some t) ∨
  (∃ h hs, [UpdateDependentTargets [exampleDeviceTarget] exampleApp 7]
             = [SendDependentHooks (h :: hs) 7] ∧
           None = Some exampleApp ∧ Some exampleApp ≠ None).
Proof.
  apply (nextSteps_shape ∅ 7 [exampleImage] [] None (Some exampleApp) []
           [exampleDeviceTarget] []).
  vm_compute. reflexivity.
Defined.

(** X16.  In the settled state of an app (no step of its parent in
    progress, its image present, current app equal to target app, device
    targets equal) the planner gives no step for it exactly when no
    current device is due a hook. *)
Theorem nextSteps_quiet_iff_no_device_due acknowledgedState appId availableImages
    downloading app currentDevices targetDevices stepsInProgress :
  existsb (λ step, bool_decide (step_appId step = Some (AppIdNumber (parentApp app))))
          stepsInProgress = false →
  _imageAvailable (image app) availableImages = true →
  _compareDevices currentDevices targetDevices appId = Ok false →
  Forall (λ d, is_Some (dev_apps d !! appId)) currentDevices →
  nextStepsForDependentApp acknowledgedState appId availableImages downloading
      (Some app) (Some app) currentDevices targetDevices stepsInProgress = Ok []
  ↔ ∀ d, d ∈ currentDevices → ¬ qualifiesForHook acknowledgedState appId d.
Proof.
  intros Hparent Himage Hdevices Hentries.
  destruct (pushHookDevices_spec acknowledgedState appId currentDevices
              Hentries []) as (pushed & Hpush & Hpushed).
  rewrite (nextSteps_settled acknowledgedState appId availableImages downloading
             app currentDevices targetDevices stepsInProgress pushed)
    by (done || by unfold _getHookStep; rewrite Hpush).
  split.
  - intros Hquiet d Hd Hq. destruct pushed as [| h hs]; [| done].
    apply (elem_of_nil (uuid d)). change (uuid d ∈ hook_uuid <$> []).
    apply Hpushed. by exists d.
  - intros Hnone. destruct pushed as [| h hs]; [done |]. exfalso.
    destruct (proj1 (Hpushed (hook_uuid h))) as (d & Hd & _ & Hq).
    { rewrite fmap_cons. apply elem_of_cons. by left. }
    by apply (Hnone d Hd).
Qed.

Lemma nextSteps_quiet_iff_no_device_due_witness :
  nextStepsForDependentApp exampleAcknowledged 7 [exampleImage] []
      (Some exampleApp) (Some exampleApp) [exampleDevice] [exampleDeviceTarget] []
    = Ok []
  ↔ ∀ d, d ∈ [exampleDevice] → ¬ qualifiesForHook exampleAcknowledged 7 d.
Proof.
  apply (nextSteps_quiet_iff_no_device_due exampleAcknowledged 7 [exampleImage]
           [] exampleApp [exampleDevice] [exampleDeviceTarget] []).
  - reflexivity.
  - reflexivity.
  - vm_compute. reflexivity.
  - repeat constructor. by eexists.
Defined.

(** *** The plan over all apps *)

Lemma setKey_keys {A} k (v : A) o k' :
  k' ∈ keys (setKey k v o) ↔ k' = k ∨ k' ∈ keys o.
Proof.
  unfold keys. induction o as [| [k0 v0] o IH]; cbn.
  - rewrite list_elem_of_singleton, elem_of_nil. tauto.
  - repeat case_decide; subst; cbn; rewrite ?elem_of_cons, ?IH; tauto.
Qed.

Lemma keyBy_keys apps k :
  k ∈ keys (keyBy apps) ↔ ∃ app, app ∈ apps ∧ appId app = k.
Proof.
  unfold keyBy.
  assert (∀ o, k ∈ keys (foldl (λ o app, setKey (appId app) app o) o apps)
               ↔ k ∈ keys o ∨ ∃ app, app ∈ apps ∧ appId app = k) as Hfold.
  { induction apps as [| app apps IH]; intros o; cbn [foldl].
    - split; [tauto |]. intros [? | (app & ?%elem_of_nil & _)]; done.
    - rewrite IH, setKey_keys. split.
      + intros [[-> | ?] | (app' & Happ' & Hk)].
        * right. exists app. split; [apply elem_of_cons; by left | done].
        * by left.
        * right. exists app'. split; [apply elem_of_cons; by right | done].
      + intros [? | (app' & [-> | Happ']%elem_of_cons & Hk)].
        * left. by right.
        * left. by left.
        * right. by exists app'. }
  rewrite Hfold. unfold keys. cbn. rewrite elem_of_nil. tauto.
Qed.

Lemma getKey_None {A} k (o : list (N * A)) : getKey k o = None ↔ k ∉ keys o.
Proof.
  unfold keys. induction o as [| [k0 v0] o IH]; cbn.
  - split; [intros _; apply not_elem_of_nil | done].
  - rewrite not_elem_of_cons. case_decide; [split; [done | tauto] |].
    rewrite IH. tauto.
Qed.

Lemma union_elem_of {A} `{EqDecision A} (a b : list A) x :
  x ∈ union a b ↔ x ∈ a ∨ x ∈ b.
Proof. unfold union. by rewrite uniq_elem_of, elem_of_app. Qed.

Lemma nextSteps_removal acknowledgedState appId availableImages downloading
    current target currentDevices targetDevices stepsInProgress steps k :
  nextStepsForDependentApp acknowledgedState appId availableImages downloading
      current target currentDevices targetDevices stepsInProgress = Ok steps →
  RemoveDependentApp k ∈ steps →
  target = None ∧ ∃ c, current = Some c ∧ Proxyvisor.appId c = k.
Proof.
  unfold nextStepsForDependentApp, _getHookStep.
  destruct target as [t |].
  - destruct (existsb _ stepsInProgress).
    { by intros [= <-] [? | ?%elem_of_nil]%elem_of_cons. }
    destruct (_ && _ && _).
    { case_bool_decide; by intros [= <-] [? | ?%elem_of_nil]%elem_of_cons. }
    destruct (_compareDevices currentDevices targetDevices appId)
      as [differ |]; [| done]. cbn.
    destruct (negb (bool_decide (current = Some t)) || differ).
    { by intros [= <-] [? | ?%elem_of_nil]%elem_of_cons. }
    destruct (pushHookDevices acknowledgedState appId currentDevices [])
      as [[| h hs] |]; cbn; [| | done].
    + by intros [= <-] ?%elem_of_nil.
    + by intros [= <-] [? | ?%elem_of_nil]%elem_of_cons.
  - destruct current as [c |]; [| done].
    intros [= <-] [Heq | ?%elem_of_nil]%elem_of_cons; [| done].
    injection Heq as Heq. split; [done |]. by exists c.
Qed.

(** X17.  When the plan succeeds, it removes exactly the apps that have a
    current record and no target record: one removal step for each of
    them, and none for any other appId. *)
Theorem getRequiredSteps_removes_apps_without_target acknowledgedState
    availableImages downloading current target stepsInProgress steps :
  getRequiredSteps acknowledgedState availableImages downloading current target
      stepsInProgress = Ok steps →
  ∀ k, RemoveDependentApp k ∈ steps ↔
       (∃ app, app ∈ default [] (current ≫= dep_apps) ∧ appId app = k) ∧
       ¬ (∃ app, app ∈ default [] (target ≫= dep_apps) ∧ appId app = k).
Proof.
  unfold getRequiredSteps. intros Hsteps k.
  rewrite <- !keyBy_keys.
  set (currentApps := keyBy (default [] (current ≫= dep_apps))) in *.
  set (targetApps := keyBy (default [] (target ≫= dep_apps))) in *.
  destruct (mapM _ (union (keys targetApps) (keys currentApps)))
    as [perApp |] eqn:Hmap; [| done].
  cbn in Hsteps. injection Hsteps as <-.
  pose proof (mapM_Ok_elem_of _ _ _ Hmap) as Hin.
  rewrite list_elem_of_In, in_concat. setoid_rewrite <- list_elem_of_In.
  setoid_rewrite Hin. split.
  - intros (l & (k' & Hk' & Hl) & Hstep).
    destruct (devicesForApp dev_apps k' current) as [currentDevices |];
      [| done]. cbn in Hl.
    destruct (devicesForApp tgt_apps k' target) as [targetDevices |];
      [| done]. cbn in Hl.
    destruct (nextSteps_removal _ _ _ _ _ _ _ _ _ _ _ Hl Hstep)
      as (Htarget & c & Hcurrent & Hc).
    assert (k' = k) as ->.
    { rewrite <- Hc. symmetry.
      by apply (keyBy_lookup_appId (default [] (current ≫= dep_apps))). }
    split.
    + destruct (decide (k ∈ keys currentApps)) as [| Hnot]; [done |].
      apply getKey_None in Hnot. congruence.
    + by apply getKey_None.
  - intros [Hcurrent Htarget].
    destruct (getKey k currentApps) as [c |] eqn:Hc;
      [| by apply getKey_None in Hc].
    apply getKey_None in Htarget.
    assert (k ∈ union (keys targetApps) (keys currentApps)) as Hk.
    { apply union_elem_of. by right. }
    destruct (list_elem_of_lookup_1 _ _ Hk) as [i Hi].
    assert (∃ l, l ∈ perApp ∧
                 (currentDevices ← devicesForApp dev_apps k current;
                  targetDevices ← devicesForApp tgt_apps k target;
                  nextStepsForDependentApp acknowledgedState k availableImages
                    downloading (getKey k currentApps) (getKey k targetApps)
                    currentDevices targetDevices stepsInProgress) = Ok l)
      as (l & Hl & Hfk).
    { clear -Hmap Hk. revert perApp Hmap.
      induction (union (keys targetApps) (keys currentApps)) as [| k0 ks IH];
        intros perApp Hmap; [by apply elem_of_nil in Hk |].
      cbn in Hmap.
      destruct (_ ← devicesForApp dev_apps k0 current; _) as [l0 |] eqn:Hk0;
        [| done]. cbn in Hmap.
      destruct (mapM _ ks) as [ls |] eqn:Hks; [| done]. cbn in Hmap.
      injection Hmap as <-.
      apply elem_of_cons in Hk as [-> | Hk].
      - exists l0. split; [apply elem_of_cons; by left | done].
      - destruct (IH Hk ls eq_refl) as (l & Hl & Hfk).
        exists l. split; [apply elem_of_cons; by right | done]. }
    exists l. split; [by exists k |].
    destruct (devicesForApp dev_apps k current) as [currentDevices |];
      [| done]. cbn in Hfk.
    destruct (devicesForApp tgt_apps k target) as [targetDevices |];
      [| done]. cbn in Hfk.
    rewrite Hc, Htarget in Hfk. cbn in Hfk. injection Hfk as <-.
    rewrite (keyBy_lookup_appId _ _ _ Hc). apply elem_of_cons. by left.
Qed.

Lemma getRequiredSteps_removes_apps_without_target_witness :
  RemoveDependentApp 7 ∈ [RemoveDependentApp 7] ↔
    (∃ app, app ∈ default [] (exampleCurrent ≫= dep_apps) ∧ appId app = 7%N) ∧
    ¬ (∃ app, app ∈ default []
                (Some {| dep_apps := None;
                         dep_devices := @None (list DeviceTarget) |}
                   ≫= dep_apps) ∧ appId app = 7%N).
Proof.
  apply (getRequiredSteps_removes_apps_without_target ∅ [] [] exampleCurrent
           (Some {| dep_apps := None; dep_devices := None |}) []).
  vm_compute. reflexivity.
Defined.

(** X18.  Reading [dependent] of the side that has none: with no apps on
    either side the plan is empty and nothing is read; as soon as the other
    side has an app, the plan throws a TypeError.  In particular a target
    without [dependent] does not plan the removal of the current apps. *)
Theorem getRequiredSteps_without_dependent acknowledgedState availableImages
    downloading current target stepsInProgress :
  (default [] (current ≫= dep_apps) = [] →
   default [] (target ≫= dep_apps) = [] →
   getRequiredSteps acknowledgedState availableImages downloading current target
       stepsInProgress = Ok []) ∧
  (current = None →
   default [] (target ≫= dep_apps) ≠ [] →
   getRequiredSteps acknowledgedState availableImages downloading current target
       stepsInProgress = Throw TypeError) ∧
  (target = None →
   default [] (current ≫= dep_apps) ≠ [] →
   getRequiredSteps acknowledgedState availableImages downloading current target
       stepsInProgress = Throw TypeError).
Proof.
  assert (∀ apps : list DependentApp, apps ≠ [] → ∃ k, k ∈ keys (keyBy apps))
    as Hkey.
  { intros [| app apps] Hne; [done |]. exists (appId app).
    apply keyBy_keys. exists app. split; [apply elem_of_cons; by left | done]. }
  unfold getRequiredSteps. split; [| split].
  - by intros -> ->.
  - intros -> [k Hk]%Hkey. rewrite (mapM_Throw _ _ TypeError); [done | |].
    + by intros x e' _ [= <-].
    + exists k. split; [apply union_elem_of; by left | done].
  - intros -> [k Hk]%Hkey. rewrite (mapM_Throw _ _ TypeError); [done | |].
    + intros x e' _. destruct current as [dep |]; cbn; by intros [= <-].
    + exists k. split; [apply union_elem_of; by right |].
      destruct current as [dep |]; [done |]. by apply elem_of_nil in Hk.
Qed.

(** *** Delivery of an update hook *)

(** X19.  [sendUpdate] touches the acknowledged state of its own device
    only.  A transport failure or a reply at or after the timeout changes
    nothing and is logged; for a reply in time an error is logged exactly
    when the status is neither 200 nor 202. *)
Theorem sendUpdate_frame device timeout outcome acknowledgedState :
  (∀ u, u ≠ hook_uuid device →
        (sendUpdate device timeout outcome acknowledgedState).1 !! u
          = acknowledgedState !! u) ∧
  (outcome = HookFailed →
     sendUpdate device timeout outcome acknowledgedState
       = (acknowledgedState, true)) ∧
  (∀ latency statusCode body,
     outcome = HookReplied latency statusCode body →
     (timeout ≤ latency →
        sendUpdate device timeout outcome acknowledgedState
          = (acknowledgedState, true)) ∧
     (latency < timeout →
        (sendUpdate device timeout outcome acknowledgedState).2
          = bool_decide (statusCode ≠ 200 ∧ statusCode ≠ 202))).
Proof.
  unfold sendUpdate. split; [| split].
  - intros u Hu. destruct outcome as [latency statusCode body |]; [| done].
    repeat case_decide; cbn; try done; try (by rewrite lookup_insert_ne).
    destruct (hook_target device);
      [by rewrite lookup_insert_ne | by rewrite lookup_delete_ne].
  - by intros ->.
  - intros latency statusCode body ->. split.
    + intros Hlate. by rewrite decide_True.
    + intros Hlat. rewrite decide_False by lia.
      case_decide; cbn.
      * rewrite bool_decide_eq_false_2; [done | tauto].
      * repeat case_bool_decide; try done; tauto.
Qed.

(** *** The asset directory of an app *)

Lemma tarDirectory_inj appId appId' :
  tarDirectory appId = tarDirectory appId' → appId = appId'.
Proof.
  unfold tarDirectory. intros Heq.
  apply (inj pretty). by apply (String.app_inj "/data/dependent-assets/").
Qed.

Lemma unlink_all_lookup dir dir' files (fs : FileSystem) :
  foldl (λ fs file, unlink dir file fs) fs files !! dir'
    = if decide (dir = dir')
      then filter (λ f, f ∉ files) <$> fs !! dir'
      else fs !! dir'.
Proof.
  revert fs. induction files as [| file files IH]; intros fs; cbn [foldl].
  - case_decide; [| done]. destruct (fs !! dir') as [l |]; [| done].
    cbn [fmap option_fmap option_map]. f_equal.
    induction l as [| f l IHl]; [done |].
    rewrite filter_cons_True by apply not_elem_of_nil. by f_equal.
  - rewrite IH. unfold unlink. case_decide as Hdir.
    + subst dir'. rewrite lookup_alter_eq.
      destruct (fs !! dir) as [l |]; [| done]. cbn. f_equal.
      rewrite list_filter_filter. apply list_filter_iff. intros f.
      rewrite not_elem_of_cons. tauto.
    + by rewrite lookup_alter_ne.
Qed.

(** X20.  [cleanupTars] works inside the asset directory of its app:
    every other directory, the asset directory of any other app among
    them, is left as it was, and when the directory of the app does not
    exist nothing is unlinked and nothing changes. *)
Theorem cleanupTars_stays_in_its_directory appId commit (fs : FileSystem) :
  (∀ dir, dir ≠ tarDirectory appId →
          (cleanupTars appId commit fs).2 !! dir = fs !! dir) ∧
  (∀ appId', appId' ≠ appId →
             (cleanupTars appId commit fs).2 !! tarDirectory appId'
               = fs !! tarDirectory appId') ∧
  (fs !! tarDirectory appId = None → cleanupTars appId commit fs = ([], fs)).
Proof.
  assert (∀ dir, dir ≠ tarDirectory appId →
                 (cleanupTars appId commit fs).2 !! dir = fs !! dir) as Hframe.
  { intros dir Hdir. unfold cleanupTars. cbn [snd].
    rewrite unlink_all_lookup. by rewrite decide_False. }
  split; [done |]. split.
  - intros appId' Hne. apply Hframe. intros Heq. by apply tarDirectory_inj in Heq.
  - intros Hnone. unfold cleanupTars. rewrite Hnone. cbn.
    by destruct commit.
Qed.

Lemma filter_none {A} (p : A → bool) l :
  (∀ x, x ∈ l → p x = false) → List.filter p l = [].
Proof.
  induction l as [| x l IH]; intros Hp; [done |]. cbn.
  rewrite Hp by (apply elem_of_cons; by left).
  apply IH. intros y Hy. apply Hp, elem_of_cons. by right.
Qed.

Lemma filter_every {A} (p : A → bool) l :
  (∀ x, x ∈ l → p x = true) → List.filter p l = l.
Proof.
  induction l as [| x l IH]; intros Hp; [done |]. cbn.
  rewrite Hp by (apply elem_of_cons; by left). f_equal.
  apply IH. intros y Hy. apply Hp, elem_of_cons. by right.
Qed.

Lemma unlinkOrReject_all pinned dir files (fs : FileSystem) :
  foldl (λ fs file, (unlinkOrReject pinned dir file fs).1) fs files
    = foldl (λ fs file, unlink dir file fs) fs
        (List.filter (λ file, negb (pinned dir file)) files).
Proof.
  revert fs. induction files as [| file files IH]; intros fs; [done |].
  cbn [foldl List.filter]. unfold unlinkOrReject at 2.
  destruct (pinned dir file); cbn [negb fst foldl]; apply IH.
Qed.

Lemma filter_not_unpinned (p : string → bool) files :
  filter (λ f, f ∉ List.filter (λ file, negb (p file)) files) files
    = List.filter p files.
Proof.
  assert (∀ l, (∀ f, f ∈ l → f ∈ files) →
               filter (λ f, f ∉ List.filter (λ file, negb (p file)) files) l
                 = List.filter p l) as Hall.
  { induction l as [| f l IH]; intros Hl; [done |].
    assert (f ∈ files) as Hf by (apply Hl, elem_of_cons; by left).
    assert (∀ f', f' ∈ l → f' ∈ files) as Hl'
      by (intros f' ?; apply Hl, elem_of_cons; by right).
    cbn [List.filter]. destruct (p f) eqn:Hp.
    - rewrite filter_cons_True; [by rewrite IH |].
      rewrite list_elem_of_In, filter_In, Hp. by intros [_ ?].
    - rewrite filter_cons_False; [by rewrite IH |].
      intros Hnot. apply Hnot.
      rewrite list_elem_of_In, filter_In, Hp, <- list_elem_of_In. done. }
  by apply Hall.
Qed.

(** X21.  Without a commit, as [removeDependentApp] calls it,
    [cleanupTars] calls [fs.unlink] for every file that [readdir] lists.
    The directory of the app is left with exactly the entries that cannot
    be unlinked, in their order, and every other directory as it was; the
    promise resolves exactly when there is no such entry, and the
    directory is empty then. *)
Theorem cleanupTars_without_commit_empties_directory pinned appId
    (fs : FileSystem) files :
  fs !! tarDirectory appId = Some files →
  attempted (cleanupTarsOrReject pinned appId None fs) = files ∧
  remaining (cleanupTarsOrReject pinned appId None fs) !! tarDirectory appId
    = Some (List.filter (pinned (tarDirectory appId)) files) ∧
  (∀ dir, dir ≠ tarDirectory appId →
     remaining (cleanupTarsOrReject pinned appId None fs) !! dir = fs !! dir) ∧
  (resolved (cleanupTarsOrReject pinned appId None fs) = true ↔
     ∀ file, file ∈ files → pinned (tarDirectory appId) file = false) ∧
  (resolved (cleanupTarsOrReject pinned appId None fs) = true →
     remaining (cleanupTarsOrReject pinned appId None fs) !! tarDirectory appId
       = Some [] ∧
     remaining (cleanupTarsOrReject pinned appId None fs)
       = (cleanupTars appId None fs).2).
Proof.
  intros Hfiles. unfold cleanupTarsOrReject, cleanupTars.
  rewrite Hfiles. change (default [] (Some files)) with files.
  cbn [attempted remaining resolved snd].
  assert (forallb (λ file,
            (unlinkOrReject pinned (tarDirectory appId) file fs).2) files = true
          ↔ ∀ file, file ∈ files → pinned (tarDirectory appId) file = false)
    as Hresolved.
  { rewrite forallb_forall. setoid_rewrite <- list_elem_of_In.
    unfold unlinkOrReject.
    split; intros Hall file Hfile; specialize (Hall file Hfile);
      by destruct (pinned (tarDirectory appId) file). }
  assert (foldl (λ fs file,
            (unlinkOrReject pinned (tarDirectory appId) file fs).1) fs files
            !! tarDirectory appId
          = Some (List.filter (pinned (tarDirectory appId)) files)) as Hleft.
  { rewrite unlinkOrReject_all, unlink_all_lookup, decide_True by done.
    rewrite Hfiles. cbn. by rewrite filter_not_unpinned. }
  split; [done |]. split; [done |]. split; [| split; [done |]].
  - intros dir Hdir. rewrite unlinkOrReject_all, unlink_all_lookup.
    by rewrite decide_False.
  - intros Hall. pose proof (proj1 Hresolved Hall) as Hfree. split.
    + rewrite Hleft. f_equal. by apply filter_none.
    + rewrite unlinkOrReject_all. f_equal. apply filter_every.
      intros file Hfile. by rewrite Hfree.
Qed.

Lemma cleanupTars_without_commit_empties_directory_witness :
  attempted (cleanupTarsOrReject exampleFolders 7 None exampleAssetsWithFolder)
    = ["7-abc.tar"; "extracted"; "7-old.tar"] ∧
  remaining (cleanupTarsOrReject exampleFolders 7 None exampleAssetsWithFolder)
      !! tarDirectory 7
    = Some (List.filter (exampleFolders (tarDirectory 7))
              ["7-abc.tar"; "extracted"; "7-old.tar"]) ∧
  (∀ dir, dir ≠ tarDirectory 7 →
     remaining (cleanupTarsOrReject exampleFolders 7 None exampleAssetsWithFolder)
       !! dir = exampleAssetsWithFolder !! dir) ∧
  (resolved (cleanupTarsOrReject exampleFolders 7 None exampleAssetsWithFolder)
     = true ↔
     ∀ file, file ∈ ["7-abc.tar"; "extracted"; "7-old.tar"] →
             exampleFolders (tarDirectory 7) file = false) ∧
  (resolved (cleanupTarsOrReject exampleFolders 7 None exampleAssetsWithFolder)
     = true →
     remaining (cleanupTarsOrReject exampleFolders 7 None exampleAssetsWithFolder)
       !! tarDirectory 7 = Some [] ∧
     remaining (cleanupTarsOrReject exampleFolders 7 None exampleAssetsWithFolder)
       = (cleanupTars 7 None exampleAssetsWithFolder).2).
Proof.
  apply (cleanupTars_without_commit_empties_directory exampleFolders 7
           exampleAssetsWithFolder ["7-abc.tar"; "extracted"; "7-old.tar"]).
  reflexivity.
Defined.

Example cleanupTars_rejects_on_a_folder :
  resolved (cleanupTarsOrReject exampleFolders 7 None exampleAssetsWithFolder)
    = false ∧
  remaining (cleanupTarsOrReject exampleFolders 7 None exampleAssetsWithFolder)
    !! tarDirectory 7 = Some ["extracted"] ∧
  resolved (cleanupTarsOrReject exampleFolders 7 None exampleAssets) = true ∧
  remaining (cleanupTarsOrReject exampleFolders 7 None exampleAssets)
    !! tarDirectory 7 = Some [].
Proof. vm_compute. done. Qed.

(** *** Rows after a replacement of a target table *)

Section replaced_rows.
Context `{Countable K} {V : Type} (key : V → K).

Lemma upserts_lookup_notin (rows : list V) (table : gmap K V) k :
  k ∉ map key rows →
  foldl (λ table row, upsertModel (key row) row table) table rows !! k
    = table !! k.
Proof.
  revert table. induction rows as [| row rows IH]; intros table Hk; [done |].
  cbn in *. apply not_elem_of_cons in Hk as [Hne Hk].
  rewrite IH by done. unfold upsertModel. by rewrite lookup_insert_ne.
Qed.

Lemma upserts_lookup_agree (rows : list V) (table table' : gmap K V) k :
  k ∈ map key rows ∨ table !! k = table' !! k →
  foldl (λ table row, upsertModel (key row) row table) table rows !! k
    = foldl (λ table row, upsertModel (key row) row table) table' rows !! k.
Proof.
  revert table table'. induction rows as [| row rows IH];
    intros table table' Hk; cbn in *.
  - destruct Hk as [Hk | Hk]; [by apply elem_of_nil in Hk | done].
  - apply IH. unfold upsertModel. destruct (decide (key row = k)) as [-> | Hne].
    + right. by rewrite !lookup_insert_eq.
    + rewrite !lookup_insert_ne by done.
      destruct Hk as [[Hk | Hk]%elem_of_cons | Hk]; [done | by left | by right].
Qed.

Lemma upserts_lookup_nodup (rows : list V) (table : gmap K V) row :
  NoDup (map key rows) → row ∈ rows →
  foldl (λ table row, upsertModel (key row) row table) table rows !! key row
    = Some row.
Proof.
  revert table. induction rows as [| row' rows IH]; intros table Hnodup Hrow.
  - by apply elem_of_nil in Hrow.
  - cbn in *. apply NoDup_cons in Hnodup as [Hnotin Hnodup].
    apply elem_of_cons in Hrow as [<- | Hrow].
    + rewrite upserts_lookup_notin by done. apply lookup_insert_eq.
    + by apply IH.
Qed.

Lemma replaced_lookup_notin (rows : list V) (table : gmap K V) k :
  k ∉ map key rows →
  deleteWhereNotIn (map key rows)
      (foldl (λ table row, upsertModel (key row) row table) table rows) !! k
    = None.
Proof.
  intros Hk. unfold deleteWhereNotIn. apply map_lookup_filter_None.
  right. by intros row _.
Qed.

Lemma replaced_lookup_in (rows : list V) (table : gmap K V) k :
  k ∈ map key rows →
  deleteWhereNotIn (map key rows)
      (foldl (λ table row, upsertModel (key row) row table) table rows) !! k
    = foldl (λ table row, upsertModel (key row) row table) table rows !! k.
Proof.
  intros Hk. unfold deleteWhereNotIn.
  destruct (foldl _ table rows !! k) as [row |] eqn:Hrow.
  - by apply map_lookup_filter_Some.
  - apply map_lookup_filter_None. by left.
Qed.

(** The table after the upserts and the deletion does not depend on the
    table before. *)
Lemma replaced_independent (rows : list V) (table table' : gmap K V) :
  deleteWhereNotIn (map key rows)
      (foldl (λ table row, upsertModel (key row) row table) table rows)
    = deleteWhereNotIn (map key rows)
        (foldl (λ table row, upsertModel (key row) row table) table' rows).
Proof.
  apply map_eq. intros k.
  destruct (decide (k ∈ map key rows)) as [Hk | Hk].
  - rewrite !replaced_lookup_in by done.
    apply upserts_lookup_agree. by left.
  - by rewrite !replaced_lookup_notin.
Qed.

Lemma replaced_lookup_nodup (rows : list V) (table : gmap K V) row :
  NoDup (map key rows) → row ∈ rows →
  deleteWhereNotIn (map key rows)
      (foldl (λ table row, upsertModel (key row) row table) table rows)
    !! key row = Some row.
Proof.
  intros Hnodup Hrow. rewrite replaced_lookup_in.
  - by apply upserts_lookup_nodup.
  - apply list_elem_of_In, in_map, list_elem_of_In, Hrow.
Qed.
End replaced_rows.

Lemma setTargetDevices_keeps_apps dependent db :
  dependentAppTarget (setTargetDevices dependent db).1
    = dependentAppTarget db.
Proof.
  unfold setTargetDevices.
  destruct (dependent ≫= des_devices) as [devices |]; [| done].
  by destruct (mapM _ devices).
Qed.

Lemma getKey_Some_elem_of {A} k (o : list (N * A)) v :
  NoDup o.*1 → (k, v) ∈ o → getKey k o = Some v.
Proof.
  induction o as [| [k' v'] o IH]; intros Hnodup Hin.
  - by apply elem_of_nil in Hin.
  - cbn in *. apply NoDup_cons in Hnodup as [Hnotin Hnodup].
    apply elem_of_cons in Hin as [[= <- <-] | Hin].
    + by rewrite decide_True.
    + rewrite decide_False; [by apply IH |].
      intros ->. apply Hnotin. apply list_elem_of_fmap. by exists (k', v).
Qed.

(** X22.  With [apps] given (its keys distinct, as those of an object
    are), the target-app table after [setTargetInTransaction] holds
    exactly the desired apps, each normalised under its key: nothing of
    the rows before is left, whether or not the devices half throws. *)
Theorem setTargetInTransaction_app_rows normalise dependent apps db :
  dependent ≫= des_apps = Some apps →
  NoDup apps.*1 →
  ∀ k, dependentAppTarget (setTargetInTransaction normalise dependent db).1 !! k
       = normaliseDependentAppForDB normalise k <$> getKey k apps.
Proof.
  intros Happs Hnodup k. unfold setTargetInTransaction.
  rewrite setTargetDevices_keeps_apps. unfold setTargetApps. rewrite Happs.
  cbn [dependentAppTarget].
  set (rows := map (λ '(appId, app),
                      normaliseDependentAppForDB normalise (checkInt appId) app)
                   apps).
  assert (map appId rows = apps.*1) as Hkeys.
  { unfold rows. rewrite map_map. apply map_ext. by intros [k' app]. }
  destruct (getKey k apps) as [app |] eqn:Hk; cbn.
  - assert (normaliseDependentAppForDB normalise k app ∈ rows) as Hrow.
    { apply list_elem_of_In, in_map_iff. exists (k, app).
      split; [done |]. by apply list_elem_of_In, getKey_elem_of. }
    rewrite <- (replaced_lookup_nodup appId rows (dependentAppTarget db) _)
      by (by rewrite ?Hkeys). done.
  - apply replaced_lookup_notin. rewrite Hkeys. by apply getKey_None.
Qed.

Lemma setTargetInTransaction_app_rows_witness :
  dependentAppTarget
      (setTargetInTransaction (λ image, image) exampleDesired exampleDatabase).1
    !! 7%N
    = normaliseDependentAppForDB (λ image, image) 7
        <$> getKey 7%N [(8%N, exampleAppSpec)].
Proof.
  apply (setTargetInTransaction_app_rows (λ image, image) exampleDesired
           [(8%N, exampleAppSpec)] exampleDatabase).
  - reflexivity.
  - repeat constructor. by intros ?%elem_of_nil.
Defined.

Lemma setTargetApps_again normalise dependent db :
  setTargetApps normalise dependent (setTargetApps normalise dependent db)
    = setTargetApps normalise dependent db.
Proof.
  unfold setTargetApps. destruct (dependent ≫= des_apps) as [apps |]; [| done].
  cbn. f_equal. apply (replaced_independent appId).
Qed.

Lemma setTargetApps_after_devices normalise dependent db :
  setTargetApps normalise dependent
      (setTargetDevices dependent (setTargetApps normalise dependent db)).1
    = (setTargetDevices dependent (setTargetApps normalise dependent db)).1.
Proof.
  unfold setTargetDevices.
  destruct (dependent ≫= des_devices) as [devices |];
    [| apply setTargetApps_again].
  destruct (mapM _ devices) as [rows |]; [| apply setTargetApps_again].
  cbn [fst]. unfold setTargetApps.
  destruct (dependent ≫= des_apps) as [apps |]; [| done].
  cbn. f_equal. apply (replaced_independent appId).
Qed.

Lemma setTargetDevices_again dependent db :
  setTargetDevices dependent (setTargetDevices dependent db).1
    = setTargetDevices dependent db.
Proof.
  unfold setTargetDevices.
  destruct (dependent ≫= des_devices) as [devices |]; [| done].
  destruct (mapM _ devices) as [rows |] eqn:Hrows; [| done].
  cbn. do 2 f_equal. apply (replaced_independent tgt_uuid).
Qed.

(** X23.  [setTargetInTransaction] is idempotent: applied again to the
    tables it has left, with the same desired state, it leaves the same
    tables and ends the same way. *)
Theorem setTargetInTransaction_idempotent normalise dependent db :
  setTargetInTransaction normalise dependent
      (setTargetInTransaction normalise dependent db).1
    = setTargetInTransaction normalise dependent db.
Proof.
  unfold setTargetInTransaction.
  rewrite setTargetApps_after_devices. apply setTargetDevices_again.
Qed.

Lemma mapM_Ok_map {A B} (g : A → B) (l : list A) :
  mapM (λ x, Ok (g x)) l = Ok (map g l).
Proof. induction l as [| x l IH]; [done |]. cbn. by rewrite IH. Qed.

(** X24.  With [apps] and [devices] given (the uuids distinct), the
    transaction resolves and the target row of each desired device has its
    uuid and name, and in every one of its app entries the commit of the
    target app named by the first key of the device's [apps] (null when
    there is none or it is empty), whatever commit the entry came with;
    uuids that are not desired have no row. *)
Theorem setTargetInTransaction_stamps_commit normalise dependent apps devices db
    uuid device :
  dependent ≫= des_apps = Some apps →
  dependent ≫= des_devices = Some devices →
  NoDup devices.*1 →
  (uuid, device) ∈ devices →
  (setTargetInTransaction normalise dependent db).2 = Ok () ∧
  (∃ row,
     dependentDeviceTarget (setTargetInTransaction normalise dependent db).1
       !! uuid = Some row ∧
     tgt_uuid row = uuid ∧
     tgt_name row = dspec_name device ∧
     ∀ k entry,
       tgt_apps row !! k = Some entry →
       tgt_commit entry
         = orNull ((head (keys (default [] (dspec_apps device)))
                      ≫= λ k0, getKey k0 apps) ≫= spec_commit)) ∧
  (∀ uuid', uuid' ∉ devices.*1 →
     dependentDeviceTarget (setTargetInTransaction normalise dependent db).1
       !! uuid' = None).
Proof.
  intros Happs Hdevices Hnodup Hdevice.
  unfold setTargetInTransaction, setTargetDevices. rewrite Hdevices, Happs.
  set (normalised := λ '(uuid, device),
         normaliseDependentDeviceTargetForDB uuid device
           ((head (keys (default [] (dspec_apps device)))
               ≫= λ k0, getKey k0 apps) ≫= spec_commit)).
  assert (∀ f, (∀ x, f x = Ok (normalised x)) →
               mapM f devices = Ok (map normalised devices)) as Hmap.
  { intros f Hf. rewrite <- mapM_Ok_map. by apply mapM_agree. }
  rewrite Hmap by (by intros [u d]).
  cbn [fst snd dependentDeviceTarget].
  assert (map tgt_uuid (map normalised devices) = devices.*1) as Hkeys.
  { rewrite map_map. apply map_ext. by intros [u d]. }
  split; [done |]. split.
  - exists (normalised (uuid, device)).
    split; [| split; [done | split; [done |]]].
    + change uuid with (tgt_uuid (normalised (uuid, device))) at 1.
      apply (replaced_lookup_nodup tgt_uuid); [by rewrite Hkeys |].
      apply list_elem_of_In, in_map, list_elem_of_In, Hdevice.
    + intros k entry Hentry. cbn in Hentry.
      apply elem_of_list_to_map_2, list_elem_of_In, in_map_iff in Hentry
        as ([k' assignment] & [= <- <-] & _). done.
  - intros uuid' Hnot. apply (replaced_lookup_notin tgt_uuid). by rewrite Hkeys.
Qed.

Lemma setTargetInTransaction_stamps_commit_witness :
  (setTargetInTransaction (λ image, image) exampleDesired exampleDatabase).2
    = Ok () ∧
  (∃ row,
     dependentDeviceTarget
         (setTargetInTransaction (λ image, image) exampleDesired exampleDatabase).1
       !! "d1" = Some row ∧
     tgt_uuid row = "d1" ∧
     tgt_name row = dspec_name exampleDeviceSpec ∧
     ∀ k entry,
       tgt_apps row !! k = Some entry →
       tgt_commit entry
         = orNull ((head (keys (default [] (dspec_apps exampleDeviceSpec)))
                      ≫= λ k0, getKey k0 [(8%N, exampleAppSpec)])
                     ≫= spec_commit)) ∧
  (∀ uuid', uuid' ∉ [("d1", exampleDeviceSpec)].*1 →
     dependentDeviceTarget
         (setTargetInTransaction (λ image, image) exampleDesired exampleDatabase).1
       !! uuid' = None).
Proof.
  apply (setTargetInTransaction_stamps_commit (λ image, image) exampleDesired
           [(8%N, exampleAppSpec)] [("d1", exampleDeviceSpec)] exampleDatabase
           "d1" exampleDeviceSpec).
  - reflexivity.
  - reflexivity.
  - repeat constructor. by intros ?%elem_of_nil.
  - apply elem_of_cons. by left.
Defined.

(** X25.  A desired state with devices but without [apps] cannot be
    applied: as soon as there is one device, reading [dependent.apps[appId]]
    throws a TypeError, and no table has been written. *)
Theorem setTargetInTransaction_devices_need_apps normalise dependent device
    devices db :
  dependent ≫= des_apps = None →
  dependent ≫= des_devices = Some (device :: devices) →
  setTargetInTransaction normalise dependent db = (db, Throw TypeError).
Proof.
  intros Happs Hdevices.
  unfold setTargetInTransaction, setTargetApps, setTargetDevices.
  rewrite Happs, Hdevices. by destruct device.
Qed.

Lemma setTargetInTransaction_devices_need_apps_witness :
  setTargetInTransaction (λ image, image) exampleDeviceWithoutApps exampleDatabase
    = (exampleDatabase, Throw TypeError).
Proof.
  apply (setTargetInTransaction_devices_need_apps (λ image, image)
           exampleDeviceWithoutApps ("d1", exampleDeviceSpec) [] exampleDatabase).
  - reflexivity.
  - reflexivity.
Defined.

(** *** The hook endpoint of an app *)

Lemma firstAddress_none addresses :
  Forall (λ a, a = None) addresses → firstAddress addresses = None.
Proof. induction 1 as [| a addresses -> _ IH]; [done | exact IH]. Qed.

Lemma firstAddress_first before address after :
  Forall (λ a, a = None) before →
  firstAddress (before ++ Some address :: after) = Some address.
Proof. induction 1 as [| a before -> _ IH]; [done | exact IH]. Qed.

(** X26.  [getHookEndpoint] throws a TypeError when the app has no row.
    With a row, the endpoint is the hook address of the first service of
    the parent app whose image environment names one, whatever the
    parent's config says; without such a service it is the address in the
    parent's config; without that, the receiver of the supervisor under
    [/v1/devices/]. *)
Theorem getHookEndpoint_priority getTargetApp getImageEnv receiver appId tables :
  ((∀ app, app ∈ dependentApp tables → Proxyvisor.appId app ≠ appId) →
   getHookEndpoint getTargetApp getImageEnv receiver appId tables
     = Throw TypeError) ∧
  (∀ before row after,
     dependentApp tables = before ++ row :: after →
     (∀ app, app ∈ before → Proxyvisor.appId app ≠ appId) →
     Proxyvisor.appId row = appId →
     let parent := getTargetApp (parentApp row) in
     let services := default [] (parent ≫= pa_services) in
     let ofImage service := hookAddress (getImageEnv (service_image service)) in
     (∀ first service rest address,
        services = first ++ service :: rest →
        Forall (λ s, ofImage s = None) first →
        ofImage service = Some address →
        getHookEndpoint getTargetApp getImageEnv receiver appId tables
          = Ok address) ∧
     (Forall (λ s, ofImage s = None) services →
      getHookEndpoint getTargetApp getImageEnv receiver appId tables
        = Ok (default (receiver +:+ "/v1/devices/")
                      (hookAddress (default ∅ (parent ≫= pa_config)))))).
Proof.
  assert (∀ apps : list DependentApp,
            (∀ app, app ∈ apps → Proxyvisor.appId app ≠ appId) →
            List.filter (λ app, bool_decide (Proxyvisor.appId app = appId)) apps
              = []) as Hnone.
  { induction apps as [| app apps IH]; intros Hne; [done |]. cbn.
    rewrite bool_decide_eq_false_2
      by (apply Hne, elem_of_cons; by left).
    apply IH. intros app' Happ'. apply Hne, elem_of_cons. by right. }
  unfold getHookEndpoint. split.
  - intros Hne. by rewrite Hnone.
  - intros before row after Htables Hbefore Hrow. rewrite Htables.
    rewrite List.filter_app, (Hnone before Hbefore). cbn.
    rewrite bool_decide_eq_true_2 by done. split.
    + intros first service rest address -> Hfirst Haddress.
      rewrite !map_app. cbn. rewrite Haddress.
      rewrite firstAddress_first; [done |].
      apply Forall_forall. intros a (x & -> & Hx)%list_elem_of_fmap.
      apply list_elem_of_fmap in Hx as (s & -> & Hs).
      by apply (proj1 (Forall_forall _ _) Hfirst).
    + intros Hnoimage. rewrite firstAddress_none; [done |].
      apply Forall_forall. intros a (x & -> & Hx)%list_elem_of_fmap.
      apply list_elem_of_fmap in Hx as (s & -> & Hs).
      by apply (proj1 (Forall_forall _ _) Hnoimage).
Qed.

Example getHookEndpoint_prefers_image :
  getHookEndpoint (λ _, Some exampleParentApp) exampleImageEnv
                  "http://127.0.0.1:1337" 7 exampleTables
    = Ok "http://bridge/v1/devices/".
Proof. reflexivity. Qed.

(** *** Delivery of hooks *)

Lemma spaced_send s request acked rows now :
  spaced s →
  (∀ last, dl_lastRequest s !! hr_uuid request = Some last →
           last + 30000 ≤ hr_time request) →
  spaced {| dl_acknowledged := acked;
            dl_lastRequest :=
              <[hr_uuid request := hr_time request]> (dl_lastRequest s);
            dl_rows := rows; dl_now := now;
            dl_sent := dl_sent s ++ [request] |}.
Proof.
  intros (Hapart & Hknown & Hlast) Hnew.
  assert (∀ a, a ∈ dl_sent s → hr_uuid a = hr_uuid request →
               hr_time a + 30000 ≤ hr_time request) as Hold.
  { intros a Ha Huuid. destruct (Hknown a Ha) as [last Hl].
    pose proof (Hlast a last Ha Hl). rewrite Huuid in Hl.
    pose proof (Hnew last Hl). lia. }
  split; [| split]; cbn.
  - intros i j a b Hij Hi Hj Huuid.
    destruct (decide (j < length (dl_sent s))%nat) as [Hlt | Hge].
    + rewrite lookup_app_l in Hi by lia. rewrite lookup_app_l in Hj by lia.
      by apply (Hapart i j).
    + rewrite lookup_app_r in Hj by lia.
      destruct (j - length (dl_sent s))%nat eqn:Hj' ; [| done].
      cbn in Hj. simplify_eq.
      rewrite lookup_app_l in Hi by lia.
      apply Hold; [| done]. by eapply list_elem_of_lookup_2.
  - intros a [Ha | ->%list_elem_of_singleton]%elem_of_app.
    + destruct (decide (hr_uuid a = hr_uuid request)) as [-> | Hne].
      * rewrite lookup_insert_eq. by eexists.
      * rewrite lookup_insert_ne by done. by apply Hknown.
    + rewrite lookup_insert_eq. by eexists.
  - intros a last [Ha | ->%list_elem_of_singleton]%elem_of_app.
    + destruct (decide (hr_uuid a = hr_uuid request)) as [Heq | Hne].
      * rewrite Heq, lookup_insert_eq. intros [= <-]. right. by apply Hold.
      * rewrite lookup_insert_ne by done. by apply Hlast.
    + rewrite lookup_insert_eq. intros [= <-]. by left.
Qed.

Lemma deliverHook_spaced env apiTimeout endpoint device s :
  spaced s → spaced (deliverHook env apiTimeout endpoint device s).
Proof.
  intros Hs. unfold deliverHook.
  set (woken := match dl_lastRequest s !! hook_uuid device with
                | Some last => _ | None => _ end).
  assert (∀ last, dl_lastRequest s !! hook_uuid device = Some last →
                  last + 30000 ≤ woken + Z.of_N (late env woken)) as Hnew.
  { intros last Hl. subst woken. rewrite Hl. case_decide; lia. }
  destruct (hook_markedForDeletion device);
    match goal with
    | |- spaced {| dl_acknowledged := ?acked; dl_rows := ?rows;
                   dl_now := ?now; dl_sent := _ ++ [?request] |} =>
        exact (spaced_send s request acked rows now Hs Hnew)
    end.
Qed.

Lemma foldl_deliverHook_spaced env apiTimeout endpoint devices s :
  spaced s →
  spaced (foldl (λ s device, deliverHook env apiTimeout endpoint device s)
                s devices).
Proof.
  revert s. induction devices as [| device devices IH]; intros s Hs; [done |].
  cbn. by apply IH, deliverHook_spaced.
Qed.

(** X27.  [sendDependentHooks] never sends a device two hooks less than
    30 seconds apart, however late timers fire and whatever the clock
    shows when a step starts: nothing is spaced wrongly at the start, and
    a step of any outcome keeps requests spaced; so do any number of
    steps. *)
Theorem sendDependentHooks_spaces_requests env :
  spaced deliveryAtStart ∧
  (∀ apiTimeout endpoint devices s,
     spaced s →
     spaced (sendDependentHooks env apiTimeout endpoint devices s).1) ∧
  (∀ s, spaced s → apart (dl_sent s)) ∧
  (∀ s now, spaced s →
     spaced {| dl_acknowledged := dl_acknowledged s;
               dl_lastRequest := dl_lastRequest s;
               dl_rows := dl_rows s; dl_now := now;
               dl_sent := dl_sent s |}).
Proof.
  split; [| split; [| split]].
  - split; [| split]; cbn.
    + intros i j a b _ Hi. by rewrite lookup_nil in Hi.
    + by intros a ?%elem_of_nil.
    + by intros a last ?%elem_of_nil.
  - intros [timeout |] [endpoint | e] devices s Hs; cbn; try done.
    by apply foldl_deliverHook_spaced.
  - by intros s (Hapart & _).
  - by intros s now Hs.
Qed.

Lemma filter_filter_andb {A} (p q : A → bool) l :
  List.filter p (List.filter q l) = List.filter (λ x, q x && p x) l.
Proof.
  induction l as [| x l IH]; [done |]. cbn.
  destruct (q x); cbn; [destruct (p x) |]; by rewrite IH.
Qed.

Lemma filter_all {A} (p : A → bool) l :
  (∀ x, p x = true) → List.filter p l = l.
Proof.
  intros Hp. induction l as [| x l IH]; [done |]. cbn. by rewrite Hp, IH.
Qed.

(** The request [deliverHook] sends for a device. *)
Lemma deliverHook_request env apiTimeout endpoint device s :
  ∃ request,
    hr_method request
      = (if hook_markedForDeletion device then DELETE else PUT) ∧
    hr_uuid request = hook_uuid device ∧
    hr_url request = endpoint +:+ hook_uuid device ∧
    dl_sent (deliverHook env apiTimeout endpoint device s)
      = dl_sent s ++ [request] ∧
    dl_rows (deliverHook env apiTimeout endpoint device s)
      = List.filter
          (λ row, negb (confirmedDeletion env apiTimeout request
                        && bool_decide (hr_uuid request = row_uuid row)))
          (dl_rows s).
Proof.
  unfold deliverHook.
  set (woken := match dl_lastRequest s !! hook_uuid device with
                | Some last => _ | None => _ end).
  set (sentAt := woken + Z.of_N (late env woken)).
  destruct (hook_markedForDeletion device) eqn:Hmarked.
  - eexists {| hr_method := DELETE; hr_time := sentAt |}.
    cbn. do 4 (split; [done |]).
    unfold confirmedDeletion, sendDeleteHook. cbn.
    destruct (respond env DELETE _ sentAt) as [latency statusCode body |];
      [| by rewrite filter_all].
    case_decide.
    { rewrite bool_decide_eq_false_2 by lia. by rewrite filter_all. }
    rewrite bool_decide_eq_true_2 by lia.
    case_decide.
    + rewrite bool_decide_eq_true_2 by done. cbn.
      apply List.filter_ext. intros row. f_equal. by apply bool_decide_ext.
    + rewrite bool_decide_eq_false_2 by done. by rewrite filter_all.
  - eexists {| hr_method := PUT; hr_time := sentAt |}.
    cbn. do 4 (split; [done |]). by rewrite filter_all.
Qed.

(** X28.  With [apiTimeout] and the endpoint at hand, a
    [sendDependentHooks] step resolves whatever the receiver answers, and
    sends one request per device of the step, in their order, to the
    endpoint followed by the uuid: DELETE for a device marked for
    deletion, PUT otherwise.  The device rows it leaves are those it
    found, less the rows of the devices whose DELETE was answered with 200
    within the timeout.  Without [apiTimeout] or without an endpoint it
    fails and sends nothing. *)
Theorem sendDependentHooks_serves_each_device env :
  (∀ apiTimeout endpoint devices s,
     let after :=
       sendDependentHooks env (Some apiTimeout) (Ok endpoint) devices s in
     after.2 = Ok () ∧
     ∃ new,
       dl_sent after.1 = dl_sent s ++ new ∧
       map (λ r, (hr_method r, hr_uuid r, hr_url r)) new
         = map (λ d, (if hook_markedForDeletion d then DELETE else PUT,
                      hook_uuid d, endpoint +:+ hook_uuid d)) devices ∧
       dl_rows after.1
         = List.filter
             (λ row, negb (existsb
                (λ r, confirmedDeletion env apiTimeout r
                      && bool_decide (hr_uuid r = row_uuid row)) new))
             (dl_rows s)) ∧
  (∀ apiTimeout endpoint devices s,
     apiTimeout = None ∨ isOk endpoint = false →
     let after := sendDependentHooks env apiTimeout endpoint devices s in
     isOk after.2 = false ∧ after.1 = s).
Proof.
  split.
  - intros apiTimeout endpoint devices s. cbn. split; [done |].
    revert s. induction devices as [| device devices IH]; intros s.
    + exists []. cbn. rewrite app_nil_r. by rewrite filter_all.
    + cbn [foldl].
      destruct (deliverHook_request env apiTimeout endpoint device s)
        as (request & Hmethod & Huuid & Hurl & Hsent & Hrows).
      destruct (IH (deliverHook env apiTimeout endpoint device s))
        as (new & Hsent' & Hnew & Hrows').
      exists (request :: new). split; [| split].
      * by rewrite Hsent', Hsent, <- app_assoc.
      * cbn [map]. by rewrite Hnew, Hmethod, Huuid, Hurl.
      * rewrite Hrows', Hrows, filter_filter_andb.
        apply List.filter_ext. intros row. cbn [existsb].
        by rewrite negb_orb.
  - intros [timeout |] [endpoint | e] devices s [? | ?]; by cbn.
Qed.

(** *** Removal of a dependent app *)

Lemma nextSteps_appId acknowledgedState appId availableImages downloading
    current target currentDevices targetDevices stepsInProgress steps step :
  (∀ c, current = Some c → Proxyvisor.appId c = appId) →
  nextStepsForDependentApp acknowledgedState appId availableImages downloading
      current target currentDevices targetDevices stepsInProgress = Ok steps →
  step ∈ steps →
  step_appId step = None ∨ step_appId step = Some (AppIdKey appId) ∨
  step_appId step = Some (AppIdNumber appId).
Proof.
  intros Hcurrent. unfold nextStepsForDependentApp.
  destruct target as [target |].
  - destruct (existsb _ stepsInProgress).
    { intros [= <-] ->%list_elem_of_singleton. by left. }
    destruct (_ && negb _).
    { case_bool_decide; intros [= <-] ->%list_elem_of_singleton; auto. }
    destruct (_compareDevices currentDevices targetDevices appId)
      as [devicesDiffer |]; [| done]. cbn.
    destruct (negb _ || devicesDiffer).
    { intros [= <-] ->%list_elem_of_singleton. auto. }
    unfold _getHookStep.
    destruct (pushHookDevices _ _ _ _) as [devices |]; [| done]. cbn.
    destruct devices; intros [= <-]; [by intros ?%elem_of_nil |].
    intros ->%list_elem_of_singleton. auto.
  - destruct current as [c |]; [| done].
    intros [= <-] ->%list_elem_of_singleton. cbn.
    rewrite (Hcurrent c eq_refl). auto.
Qed.

(** X29.  [removeDependentApp] resolves exactly when every entry of the
    asset directory of the app can be unlinked; when it does not, the
    transaction is rolled back and both tables are as they were.  When it
    resolves, the row of the app and the rows of its devices are gone and
    every other row is kept, in the order they had; read back through
    [getCurrentStates], the tables give [getRequiredSteps] nothing more to
    do for the app as long as the target does not list it: no step of the
    plan carries its appId. *)
Theorem removeDependentApp_leaves_nothing_to_plan pinned appId tables fs :
  (rm_resolved (removeDependentApp pinned appId tables fs) = true ↔
     ∀ file, file ∈ default [] (fs !! tarDirectory appId) →
             pinned (tarDirectory appId) file = false) ∧
  (rm_resolved (removeDependentApp pinned appId tables fs) = false →
     rm_tables (removeDependentApp pinned appId tables fs) = tables) ∧
  (rm_resolved (removeDependentApp pinned appId tables fs) = true →
     (∀ app,
        app ∈ dependentApp (rm_tables (removeDependentApp pinned appId tables fs))
        ↔ app ∈ dependentApp tables ∧ Proxyvisor.appId app ≠ appId) ∧
     (∀ row,
        row ∈ dependentDevice
                (rm_tables (removeDependentApp pinned appId tables fs))
        ↔ row ∈ dependentDevice tables ∧ row_appId row ≠ appId) ∧
     (∀ k, k ≠ appId →
        List.filter (λ app, bool_decide (Proxyvisor.appId app = k))
            (dependentApp (rm_tables (removeDependentApp pinned appId tables fs)))
          = List.filter (λ app, bool_decide (Proxyvisor.appId app = k))
                        (dependentApp tables) ∧
        List.filter (λ row, bool_decide (row_appId row = k))
            (dependentDevice
               (rm_tables (removeDependentApp pinned appId tables fs)))
          = List.filter (λ row, bool_decide (row_appId row = k))
                        (dependentDevice tables)) ∧
     (∀ acknowledgedState availableImages downloading target stepsInProgress
        steps,
        (∀ app, app ∈ default [] (target ≫= dep_apps) →
                Proxyvisor.appId app ≠ appId) →
        getRequiredSteps acknowledgedState availableImages downloading
          (Some (getCurrentStates
                   (rm_tables (removeDependentApp pinned appId tables fs))))
          target stepsInProgress = Ok steps →
        ∀ step, step ∈ steps →
                step_appId step ≠ Some (AppIdNumber appId) ∧
                step_appId step ≠ Some (AppIdKey appId))).
Proof.
  unfold removeDependentApp. cbn [rm_resolved rm_tables].
  split; [| split].
  - unfold cleanupTarsOrReject. cbn [resolved].
    rewrite forallb_forall. setoid_rewrite <- list_elem_of_In.
    unfold unlinkOrReject.
    split; intros Hall file Hfile; specialize (Hall file Hfile);
      by destruct (pinned (tarDirectory appId) file).
  - by intros ->.
  - intros ->.
    set (after :=
      {| dependentApp :=
           List.filter (λ app, negb (bool_decide (Proxyvisor.appId app = appId)))
                       (dependentApp tables);
         dependentDevice :=
           List.filter (λ row, negb (bool_decide (row_appId row = appId)))
                       (dependentDevice tables) |}).
    assert (∀ app, app ∈ dependentApp after ↔
                   app ∈ dependentApp tables ∧ Proxyvisor.appId app ≠ appId)
      as Happs.
    { intros app. cbn. rewrite !list_elem_of_In, filter_In.
      rewrite negb_true_iff, bool_decide_eq_false. tauto. }
    split; [done |]. split; [| split].
    + intros row. cbn. rewrite !list_elem_of_In, filter_In.
      rewrite negb_true_iff, bool_decide_eq_false. tauto.
    + intros k Hk. cbn. rewrite !filter_filter_andb. split.
      * apply List.filter_ext. intros app.
        repeat case_bool_decide; try done. exfalso. apply Hk. congruence.
      * apply List.filter_ext. intros row.
        repeat case_bool_decide; try done. exfalso. apply Hk. congruence.
    + intros acknowledgedState availableImages downloading target
        stepsInProgress steps Htarget. unfold getRequiredSteps.
      set (current := Some (getCurrentStates after)).
      set (currentApps := keyBy (default [] (current ≫= dep_apps))).
      set (targetApps := keyBy (default [] (target ≫= dep_apps))).
      destruct (mapM _ (union (keys targetApps) (keys currentApps)))
        as [perApp |] eqn:Hmap; [| done].
      cbn. intros [= <-] step.
      pose proof (mapM_Ok_elem_of _ _ _ Hmap) as Hin.
      rewrite list_elem_of_In, in_concat. setoid_rewrite <- list_elem_of_In.
      setoid_rewrite Hin.
      intros (l & (k & Hk & Hl) & Hstep).
      assert (k ≠ appId) as Hne.
      { apply union_elem_of in Hk as [Hk | Hk];
          apply keyBy_keys in Hk as (app & Happ & <-).
        - by apply Htarget.
        - cbn in Happ. by apply Happs in Happ as [_ ?]. }
      destruct (devicesForApp dev_apps k current) as [currentDevices |];
        [| done]. cbn in Hl.
      destruct (devicesForApp tgt_apps k target) as [targetDevices |];
        [| done]. cbn in Hl.
      eapply nextSteps_appId in Hl; [| | exact Hstep].
      * destruct Hl as [-> | [-> | ->]]; split; congruence.
      * intros c Hc. by apply keyBy_lookup_appId in Hc.
Qed.

Example removeDependentApp_then_plan :
  getRequiredSteps ∅ [] []
    (Some (getCurrentStates
             (rm_tables (removeDependentApp exampleFolders 7 exampleTables
                           exampleAssets))))
    (Some {| dep_apps := None; dep_devices := None |}) []
  = Ok [] ∧
  getRequiredSteps ∅ [] [] (Some (getCurrentStates exampleTables))
    (Some {| dep_apps := None; dep_devices := None |}) []
  = Ok [RemoveDependentApp 7].
Proof. split; vm_compute; reflexivity. Qed.

Example removeDependentApp_rolled_back :
  rm_resolved (removeDependentApp exampleFolders 7 exampleTables
                 exampleAssetsWithFolder) = false ∧
  rm_tables (removeDependentApp exampleFolders 7 exampleTables
               exampleAssetsWithFolder) = exampleTables ∧
  rm_files (removeDependentApp exampleFolders 7 exampleTables
              exampleAssetsWithFolder) !! tarDirectory 7 = Some ["extracted"] ∧
  getRequiredSteps ∅ [] []
    (Some (getCurrentStates
             (rm_tables (removeDependentApp exampleFolders 7 exampleTables
                           exampleAssetsWithFolder))))
    (Some {| dep_apps := None; dep_devices := None |}) []
  = Ok [RemoveDependentApp 7].
Proof. vm_compute. done. Qed.

End ProxyvisorProofs.
